(** * The Redux store engine: createStore, dispatch, subscribe,
      replaceReducer, compose and applyMiddleware

    A shallow embedding of [src/createStore.ts], [src/compose.ts] and
    [src/applyMiddleware.ts].  The closure variables of one [createStore]
    call are the fields of the record [store]; the listener arrays live in
    a small heap so that [currentListeners] and [nextListeners] can alias,
    as they do in the source.  Reducers and listeners are user code: each
    is a tree of calls to the store's public operations, with what it does
    on every return and on every exception, and the engine runs it. *)

From stdpp Require Import base list strings.
From Stdlib Require Import ZArith Lia.

Set Default Proof Using "Type".
Set Warnings "-register-all".
Open Scope Z_scope.
Open Scope nat_scope.

(** ** JavaScript values *)

(** How an object was made: by an object literal (or [Object.create(null)]),
    as an array, or by [new] on a class. *)
Inductive objkind := PlainObject | ArrayObject | ClassInstance.

(** Identity of an object: one the caller made, or the n-th object literal
    the engine itself evaluated (the synthetic actions). *)
Inductive objref := UserRef (n : nat) | EngineRef (n : nat).

(** Function objects, identified by reference: a function of the user, or
    the [unsubscribe] closure returned by the h-th call of [subscribe]. *)
Inductive fnref := FUser (id : nat) | FUnsub (h : nat).

Inductive value :=
  | VUndefined
  | VNull
  | VBool (b : bool)
  | VNum (n : Z)
  | VStr (s : string)
  | VFunction (f : fnref)
  | VObject (ref : objref) (kind : objkind) (fields : list (string * value))
  | VStore. (* the object literal [store] that createStore returns *)

#[global] Instance fnref_eq_dec : EqDecision fnref.
Proof. solve_decision. Defined.

Inductive jstype :=
  TUndefined | TObject | TBoolean | TNumber | TString | TFunction.

Definition typeof (v : value) : jstype :=
  match v with
  | VUndefined => TUndefined
  | VNull => TObject
  | VBool _ => TBoolean
  | VNum _ => TNumber
  | VStr _ => TString
  | VFunction _ => TFunction
  | VObject _ _ _ => TObject
  | VStore => TObject
  end.

Definition is_function (v : value) : bool :=
  match typeof v with TFunction => true | _ => false end.

Definition is_undefined (v : value) : bool :=
  match typeof v with TUndefined => true | _ => false end.

Fixpoint assoc (key : string) (fields : list (string * value)) : value :=
  match fields with
  | [] => VUndefined
  | (k, v) :: rest => if String.eqb k key then v else assoc key rest
  end.

(** Property read [v.key] on a value that is an object. *)
Definition get_prop (v : value) (key : string) : value :=
  match v with
  | VObject _ _ fields => assoc key fields
  | _ => VUndefined
  end.

(** Modelled from the spec: [utils/isPlainObject] is imported by
    createStore.ts but its file is not among the sources.  The spec asks for
    "a plain structured record (not a function, class instance, array, or
    primitive)". *)
Definition isPlainObject (v : value) : bool :=
  match v with
  | VObject _ PlainObject _ => true
  | VStore => true
  | _ => false
  end.

(** ** Errors

    The source throws [Error] with a message; the constructors name the
    kinds of section 7 of the specification, one per [throw] site. *)
Inductive error :=
  | InvalidArgument       (* "Expected the ... to be a function" *)
  | AmbiguousEnhancer     (* "passing several store enhancers" *)
  | InvalidActionShape    (* "Actions must be plain objects" *)
  | MissingActionType     (* "Actions may not have an undefined type" *)
  | ReentrantDispatch     (* "Reducers may not dispatch actions." *)
  | IllegalReentrantRead  (* "You may not call store.getState() while ..." *)
  | ReentrantSubscribe    (* "You may not call store.subscribe() while ..." *)
  | ReentrantUnsubscribe  (* "You may not unsubscribe ... while ..." *)
  | PrematureDispatch     (* "Dispatching while constructing your middleware" *)
  | TypeError             (* the host's error for calling a non-function *)
  | UserError (v : value). (* anything user code throws *)

Inductive result := Ok (v : value) | Err (e : error).

(** ** User code

    A reducer or a listener is JavaScript that may call the store's
    operations, look at what they return, catch what they throw, and
    finally return or throw itself. *)
Inductive call :=
  | CDispatch (action : value)
  | CGetState
  | CSubscribe (listener : value)
  | CUnsubscribe (h : nat)   (* call the closure returned by the h-th subscribe *)
  | CReplaceReducer (nextReducer : value).

Inductive prog :=
  | Ret (v : value)
  | Throw (e : error)
  | Call (c : call) (onReturn : value → prog) (onThrow : error → prog).

(** [c] followed by [k], an exception of [c] left uncaught. *)
Definition call_then (c : call) (k : value → prog) : prog := Call c k Throw.

(** ** The closure state of one store *)

Record store := mkStore {
  currentReducer : fnref;
  currentState : value;
  currentListeners : option nat;   (* an array reference, or null *)
  nextListeners : nat;             (* an array reference *)
  isDispatching : bool;
  arrays : list (list fnref);      (* the heap of listener arrays *)
  closures : list (fnref * bool);  (* per subscribe call: listener, isSubscribed *)
  created : nat;                   (* ghost: object literals evaluated so far *)
  reducerCalls : list (fnref * value * value)
                                   (* ghost: every invocation of a reducer *)
}.

Definition set_currentReducer (f : fnref) (st : store) : store :=
  mkStore f (currentState st) (currentListeners st) (nextListeners st)
    (isDispatching st) (arrays st) (closures st) (created st) (reducerCalls st).
Definition set_currentState (v : value) (st : store) : store :=
  mkStore (currentReducer st) v (currentListeners st) (nextListeners st)
    (isDispatching st) (arrays st) (closures st) (created st) (reducerCalls st).
Definition set_currentListeners (c : option nat) (st : store) : store :=
  mkStore (currentReducer st) (currentState st) c (nextListeners st)
    (isDispatching st) (arrays st) (closures st) (created st) (reducerCalls st).
Definition set_nextListeners (n : nat) (st : store) : store :=
  mkStore (currentReducer st) (currentState st) (currentListeners st) n
    (isDispatching st) (arrays st) (closures st) (created st) (reducerCalls st).
Definition set_isDispatching (b : bool) (st : store) : store :=
  mkStore (currentReducer st) (currentState st) (currentListeners st)
    (nextListeners st) b (arrays st) (closures st) (created st) (reducerCalls st).
Definition set_arrays (a : list (list fnref)) (st : store) : store :=
  mkStore (currentReducer st) (currentState st) (currentListeners st)
    (nextListeners st) (isDispatching st) a (closures st) (created st)
    (reducerCalls st).
Definition set_closures (c : list (fnref * bool)) (st : store) : store :=
  mkStore (currentReducer st) (currentState st) (currentListeners st)
    (nextListeners st) (isDispatching st) (arrays st) c (created st)
    (reducerCalls st).
Definition set_created (n : nat) (st : store) : store :=
  mkStore (currentReducer st) (currentState st) (currentListeners st)
    (nextListeners st) (isDispatching st) (arrays st) (closures st) n
    (reducerCalls st).
Definition set_reducerCalls (l : list (fnref * value * value)) (st : store)
  : store :=
  mkStore (currentReducer st) (currentState st) (currentListeners st)
    (nextListeners st) (isDispatching st) (arrays st) (closures st)
    (created st) l.

Inductive outcome := OutOfFuel | Done (r : result) (st : store).

(** The array an array reference points to. *)
Definition array_at (st : store) (a : nat) : list fnref :=
  default [] (arrays st !! a).

(** The listeners a dispatch starting now would notify. *)
Definition registered (st : store) : list fnref :=
  array_at st (nextListeners st).

(** ** Array primitives of the host *)

(** [Array.prototype.indexOf]: the first index holding [x], or -1. *)
Fixpoint indexOf (x : fnref) (l : list fnref) : Z :=
  match l with
  | [] => (-1)%Z
  | y :: l' =>
      if decide (y = x) then 0%Z
      else let r := indexOf x l' in
           if (r <? 0)%Z then (-1)%Z else (r + 1)%Z
  end.

(** [l.splice(start, 1)]: a negative [start] counts from the end, a [start]
    past the end removes nothing. *)
Definition splice1 (start : Z) (l : list fnref) : list fnref :=
  let len := Z.of_nat (length l) in
  let s := if (start <? 0)%Z then Z.max (len + start) 0 else Z.min start len in
  delete (Z.to_nat s) l.

(** ** compose *)

(** [funcs.reduce((a, b) => (...args) => a(b(...args)))]: a reduce with no
    initial value starts from the first element. *)
Definition compose {A : Type} (funcs : list (A → A)) : A → A :=
  match funcs with
  | [] => λ arg, arg
  | [f] => f
  | f :: rest => fold_left (λ a b, λ args, a (b args)) rest f
  end.

(** ** Store objects, store creators and enhancers *)

(** What an interceptor was entered with; ghost. *)
Inductive mevent :=
  | EnterInterceptor (i : nat) (action : value)
  | EnterBase (action : value).

Record world := mkWorld {
  cells : store;
  trace : list mevent   (* ghost *)
}.

Inductive woutcome := WOutOfFuel | WDone (r : result) (w : world).

Definition Dispatch := value → world → woutcome.

(** The object a store creator returns: its methods, as functions of the
    state they close over. *)
Record StoreObject := mkStoreObject {
  dispatch_method : Dispatch;
  getState_method : world → woutcome;
  subscribe_method : value → world → woutcome;
  replaceReducer_method : value → world → woutcome
}.

Record MiddlewareAPI := mkMiddlewareAPI {
  api_getState : world → woutcome;
  api_dispatch : Dispatch
}.

Definition Middleware := MiddlewareAPI → Dispatch → Dispatch.

Inductive coutcome :=
  | COutOfFuel
  | CThrow (e : error)
  | CReturn (obj : StoreObject) (st : store).

(** [createStore] as a value: a function of up to four arguments. *)
Definition StoreCreator := value → value → value → value → coutcome.

Definition lift (f : store → outcome) (w : world) : woutcome :=
  match f (cells w) with
  | OutOfFuel => WOutOfFuel
  | Done r st => WDone r (mkWorld st (trace w))
  end.

Definition record (ev : mevent) (w : world) : world :=
  mkWorld (cells w) (trace w ++ [ev]).

(** ** What the engine is run with

    What each user function does when it is called as a reducer (with the
    state and the action), as a listener, and as a store enhancer (its
    result called with a reducer and a preloaded state); and the two random
    suffixes [utils/actionTypes] draws once per process. *)
Record environment := mkEnvironment {
  reducer_body : nat → value → value → prog;
  listener_body : nat → prog;
  enhancer_body : fnref → StoreCreator → value → value → coutcome;
  randomString_INIT : string;
  randomString_REPLACE : string
}.

(** ** The store's operations *)

Section Redux.

Variable E : environment.

(** [ActionTypes.INIT] and [ActionTypes.REPLACE] *)
Definition ActionTypes_INIT : string :=
  String.append "@@redux/INIT" (randomString_INIT E).
Definition ActionTypes_REPLACE : string :=
  String.append "@@redux/REPLACE" (randomString_REPLACE E).

(** The object literal [{ type: t }], evaluated as the n-th of the engine. *)
Definition action_of_type (n : nat) (t : string) : value :=
  VObject (EngineRef n) PlainObject [("type"%string, VStr t)].

Definition ensureCanMutateNextListeners (st : store) : store :=
  if decide (currentListeners st = Some (nextListeners st)) then
    (* nextListeners = currentListeners.slice() *)
    set_nextListeners (length (arrays st))
      (set_arrays (arrays st ++ [array_at st (nextListeners st)]) st)
  else st.

Definition getState (st : store) : outcome :=
  if isDispatching st then Done (Err IllegalReentrantRead) st
  else Done (Ok (currentState st)) st.

(** [nextListeners.push(listener)] *)
Definition push_next (l : fnref) (st : store) : store :=
  set_arrays (alter (λ a, a ++ [l]) (nextListeners st) (arrays st)) st.

Definition subscribe (listener : value) (st : store) : outcome :=
  match listener with
  | VFunction l =>
      if isDispatching st then Done (Err ReentrantSubscribe) st
      else
        (* let isSubscribed = true: a new closure environment *)
        let h := length (closures st) in
        let st1 := set_closures (closures st ++ [(l, true)]) st in
        let st2 := ensureCanMutateNextListeners st1 in
        let st3 := push_next l st2 in
        Done (Ok (VFunction (FUnsub h))) st3
  | _ => Done (Err InvalidArgument) st
  end.

(** The closure returned by the h-th [subscribe].  A program cannot hold
    a closure that was never made; the model answers such a call with the
    host's TypeError. *)
Definition unsubscribe (h : nat) (st : store) : outcome :=
  match closures st !! h with
  | None => Done (Err TypeError) st
  | Some (listener, isSubscribed) =>
      if negb isSubscribed then Done (Ok VUndefined) st
      else if isDispatching st then Done (Err ReentrantUnsubscribe) st
      else
        let st1 := set_closures (<[h := (listener, false)]> (closures st)) st in
        let st2 := ensureCanMutateNextListeners st1 in
        let index := indexOf listener (registered st2) in
        let st3 :=
          set_arrays (alter (splice1 index) (nextListeners st2) (arrays st2))
            st2 in
        Done (Ok VUndefined) (set_currentListeners None st3)
  end.

(** [replaceReducer], over the [dispatch] it closes over. *)
Definition replaceReducer (dispatch : value → store → outcome)
    (nextReducer : value) (st : store) : outcome :=
  match nextReducer with
  | VFunction f =>
      let st1 := set_currentReducer f st in
      let action := action_of_type (created st1) ActionTypes_REPLACE in
      match dispatch action (set_created (S (created st1)) st1) with
      | OutOfFuel => OutOfFuel
      | Done (Err e) st2 => Done (Err e) st2
      | Done (Ok _) st2 => Done (Ok VStore) st2
      end
  | _ => Done (Err InvalidArgument) st
  end.

Definition exec_call (dispatch : value → store → outcome) (c : call)
    (st : store) : outcome :=
  match c with
  | CDispatch action => dispatch action st
  | CGetState => getState st
  | CSubscribe listener => subscribe listener st
  | CUnsubscribe h => unsubscribe h st
  | CReplaceReducer r => replaceReducer dispatch r st
  end.

(** Running user code against the store. *)
Fixpoint run (dispatch : value → store → outcome) (p : prog) (st : store)
    : outcome :=
  match p with
  | Ret v => Done (Ok v) st
  | Throw e => Done (Err e) st
  | Call c onReturn onThrow =>
      match exec_call dispatch c st with
      | OutOfFuel => OutOfFuel
      | Done (Ok v) st' => run dispatch (onReturn v) st'
      | Done (Err e) st' => run dispatch (onThrow e) st'
      end
  end.

(** [f(state, action)] for the function object [f]. *)
Definition invoke_reducer (dispatch : value → store → outcome) (f : fnref)
    (state action : value) (st : store) : outcome :=
  match f with
  | FUser id => run dispatch (reducer_body E id state action) st
  | FUnsub h => unsubscribe h st
  end.

(** [f()] for the function object [f]. *)
Definition invoke_listener (dispatch : value → store → outcome) (f : fnref)
    (st : store) : outcome :=
  match f with
  | FUser id => run dispatch (listener_body E id) st
  | FUnsub h => unsubscribe h st
  end.

(** Ghost: note that the current reducer is about to be called. *)
Definition log_reducerCall (action : value) (st : store) : store :=
  set_reducerCalls
    (reducerCalls st ++ [(currentReducer st, currentState st, action)]) st.

(** [dispatch], and the loop over [listeners] at its end.  The second
    component is ghost: the listeners this very call invoked, in order.
    Fuel bounds the nesting of dispatches and the length of the loops. *)
Fixpoint dispatch (fuel : nat) (action : value) (st : store) {struct fuel}
    : outcome * list fnref :=
  match fuel with
  | 0 => (OutOfFuel, [])
  | S fuel' =>
      if negb (isPlainObject action) then
        (Done (Err InvalidActionShape) st, [])
      else if is_undefined (get_prop action "type") then
        (Done (Err MissingActionType) st, [])
      else if isDispatching st then
        (Done (Err ReentrantDispatch) st, [])
      else
        match invoke_reducer (λ a s, fst (dispatch fuel' a s))
                (currentReducer st) (currentState st) action
                (set_isDispatching true (log_reducerCall action st)) with
        | OutOfFuel => (OutOfFuel, [])
        | Done (Err e) st1 =>
            (* finally *)
            (Done (Err e) (set_isDispatching false st1), [])
        | Done (Ok v) st1 =>
            let st2 := set_isDispatching false (set_currentState v st1) in
            let listeners := nextListeners st2 in
            let st3 := set_currentListeners (Some listeners) st2 in
            match notify fuel' listeners 0 st3 with
            | (Done (Ok _) st4, invoked) => (Done (Ok action) st4, invoked)
            | other => other
            end
        end
  end
with notify (fuel : nat) (listeners : nat) (i : nat) (st : store)
    {struct fuel} : outcome * list fnref :=
  match fuel with
  | 0 => (OutOfFuel, [])
  | S fuel' =>
      match array_at st listeners !! i with
      | None => (Done (Ok VUndefined) st, [])
      | Some listener =>
          match invoke_listener (λ a s, fst (dispatch fuel' a s))
                  listener st with
          | OutOfFuel => (OutOfFuel, [listener])
          | Done (Err e) st' => (Done (Err e) st', [listener])
          | Done (Ok _) st' =>
              let '(o, invoked) := notify fuel' listeners (S i) st' in
              (o, listener :: invoked)
          end
      end
  end.

(** [store.dispatch] as user code sees it. *)
Definition store_dispatch (fuel : nat) (action : value) (st : store)
    : outcome :=
  fst (dispatch fuel action st).


(** *** createStore *)

(** The [store] object of the base path; [fuel] is what each call of a
    method may use. *)
Definition store_object (fuel : nat) : StoreObject :=
  {| dispatch_method := λ action, lift (store_dispatch fuel action);
     getState_method := lift getState;
     subscribe_method := λ listener, lift (subscribe listener);
     replaceReducer_method := λ nextReducer,
       lift (replaceReducer (store_dispatch fuel) nextReducer) |}.

(** The closure variables as [createStore] initialises them:
    [currentListeners = []] and [nextListeners = currentListeners]. *)
Definition initial_store (reducer : fnref) (preloadedState : value) : store :=
  {| currentReducer := reducer;
     currentState := preloadedState;
     currentListeners := Some 0;
     nextListeners := 0;
     isDispatching := false;
     arrays := [[]];
     closures := [];
     created := 0;
     reducerCalls := [] |}.

Fixpoint createStore (fuel : nat)
    (reducer preloadedState enhancer arg3 : value) {struct fuel} : coutcome :=
  match fuel with
  | 0 => COutOfFuel
  | S fuel' =>
      if (is_function preloadedState && is_function enhancer)
         || (is_function enhancer && is_function arg3)
      then CThrow AmbiguousEnhancer
      else
        let '(enhancer, preloadedState) :=
          if is_function preloadedState && is_undefined enhancer
          then (preloadedState, VUndefined)
          else (enhancer, preloadedState) in
        if negb (is_undefined enhancer) then
          match enhancer with
          | VFunction f =>
              enhancer_body E f (createStore fuel') reducer preloadedState
          | _ => CThrow InvalidArgument
          end
        else
          match reducer with
          | VFunction r =>
              let st := initial_store r preloadedState in
              let action :=
                action_of_type (created st) ActionTypes_INIT in
              match store_dispatch fuel' action
                      (set_created (S (created st)) st) with
              | OutOfFuel => COutOfFuel
              | Done (Err e) _ => CThrow e
              | Done (Ok _) st' => CReturn (store_object fuel') st'
              end
          | _ => CThrow InvalidArgument
          end
  end.

End Redux.

(** ** applyMiddleware *)

(** Ghost: note that interceptor [i] was entered, then run it. *)
Definition traced (i : nat) (wrapper : Dispatch → Dispatch)
    : Dispatch → Dispatch :=
  λ next action w, wrapper next action (record (EnterInterceptor i action) w).

(** Ghost: note that the store's own dispatch was entered, then run it. *)
Definition traced_base (d : Dispatch) : Dispatch :=
  λ action w, d action (record (EnterBase action) w).

(** The [dispatch] of the returned store.  [middlewareAPI.dispatch] calls
    whatever the variable [dispatch] holds when it is called, which after
    construction is this very function: the fuel bounds that re-entry.
    Building a wrapper has no effect of its own here, so the placeholder
    that throws during construction is never reached. *)
Fixpoint composed_dispatch (fuel : nat) (middlewares : list Middleware)
    (store : StoreObject) {struct fuel} : Dispatch :=
  match fuel with
  | 0 => λ _ _, WOutOfFuel
  | S fuel' =>
      let middlewareAPI :=
        {| api_getState := getState_method store;
           api_dispatch := λ action,
             composed_dispatch fuel' middlewares store action |} in
      let chain :=
        imap (λ i middleware, traced i (middleware middlewareAPI))
          middlewares in
      compose chain (traced_base (dispatch_method store))
  end.

Definition applyMiddleware (fuel : nat) (middlewares : list Middleware)
    (createStore : StoreCreator) (reducer preloadedState : value) : coutcome :=
  match createStore reducer preloadedState VUndefined VUndefined with
  | COutOfFuel => COutOfFuel
  | CThrow e => CThrow e
  | CReturn store st =>
      CReturn
        {| dispatch_method := composed_dispatch fuel middlewares store;
           getState_method := getState_method store;
           subscribe_method := subscribe_method store;
           replaceReducer_method := replaceReducer_method store |}
        st
  end.

(** ** Predicates used by the statements *)

(** What [dispatch] accepts: a plain object whose [type] is not undefined. *)
Definition valid_action (action : value) : bool :=
  isPlainObject action && negb (is_undefined (get_prop action "type")).

(** The error of the first guard of [dispatch] that turns [action] away
    while the reducer runs. *)
Definition rejection (action : value) : error :=
  if negb (isPlainObject action) then InvalidActionShape
  else if is_undefined (get_prop action "type") then MissingActionType
  else ReentrantDispatch.

(** [xs] without the first occurrence of [x]. *)
Fixpoint remove_first (x : fnref) (xs : list fnref) : list fnref :=
  match xs with
  | [] => []
  | y :: xs' => if decide (y = x) then xs' else y :: remove_first x xs'
  end.

(** The listeners of the subscriptions that were not yet cancelled. *)
Definition live_listeners (st : store) : list fnref :=
  (filter (λ c : fnref * bool, c.2 = true) (closures st)).*1.

(** The shape every reachable store has: the two array references point
    into the heap, and the staging array holds one entry per live
    subscription. *)
Record wf (st : store) : Prop := mkWf {
  wf_next : nextListeners st < length (arrays st);
  wf_current : ∀ c, currentListeners st = Some c → c < length (arrays st);
  wf_registered : registered st ≡ₚ live_listeners st
}.

(** The array [d] may be read by a running loop: it is allocated, and
    [nextListeners] does not point to it unless [currentListeners] does. *)
Definition frozen (d : nat) (st : store) : Prop :=
  d < length (arrays st) ∧ (nextListeners st = d → currentListeners st = Some d).

(** What every operation of the store guarantees between the state it is
    called in and the state it leaves. *)
Record grows (st st' : store) : Prop := mkGrows {
  grows_frozen : ∀ d, frozen d st → frozen d st' ∧ array_at st' d = array_at st d;
  grows_wf : wf st → wf st';
  grows_calls : reducerCalls st `prefix_of` reducerCalls st'
}.

Definition sound (d : value → store → outcome) : Prop :=
  ∀ a st r st', d a st = Done r st' →
    grows st st' ∧ isDispatching st' = isDispatching st.

(** The common part of [subscribe] and [unsubscribe]: make the staging
    array private, then change it in place. *)
Definition mutate_next (f : list fnref → list fnref) (st : store) : store :=
  let st' := ensureCanMutateNextListeners st in
  set_arrays (alter f (nextListeners st') (arrays st')) st'.

(** What the reducer's own calls can change while it runs: the reducer
    binding (through [replaceReducer]) and nothing else that is not ghost. *)
Record reducer_phase (st st' : store) : Prop := mkReducerPhase {
  phase_state : currentState st' = currentState st;
  phase_current : currentListeners st' = currentListeners st;
  phase_next : nextListeners st' = nextListeners st;
  phase_flag : isDispatching st' = isDispatching st;
  phase_arrays : arrays st' = arrays st;
  phase_closures : closures st' = closures st;
  phase_calls : reducerCalls st' = reducerCalls st
}.

(** What user code that does not dispatch leaves alone. *)
Definition settled (st st' : store) : Prop :=
  currentState st' = currentState st
  ∧ currentReducer st' = currentReducer st
  ∧ isDispatching st' = isDispatching st
  ∧ reducerCalls st' = reducerCalls st.

(** [d2] answers whatever [d1] answers. *)
Definition extends (d1 d2 : value → store → outcome) : Prop :=
  ∀ a st r st', d1 a st = Done r st' → d2 a st = Done r st'.

(** User code that neither dispatches nor replaces the reducer. *)
Fixpoint quiet (p : prog) : Prop :=
  match p with
  | Ret _ | Throw _ => True
  | Call c onReturn onThrow =>
      match c with
      | CDispatch _ | CReplaceReducer _ => False
      | _ => True
      end
      ∧ (∀ v, quiet (onReturn v)) ∧ (∀ e, quiet (onThrow e))
  end.

(** An interceptor's wrapper that calls [next] exactly once: it may look at
    and change the store before, pass on another action, and rework the
    result after. *)
Definition forwards (wrapper : Dispatch → Dispatch) : Prop :=
  ∃ (before : value → store → value * store)
    (after : result → store → result * store),
    ∀ next action w,
      wrapper next action w =
        match next (before action (cells w)).1
                (mkWorld (before action (cells w)).2 (trace w)) with
        | WOutOfFuel => WOutOfFuel
        | WDone r w' =>
            WDone (after r (cells w')).1
              (mkWorld (after r (cells w')).2 (trace w'))
        end.

(** A dispatch that leaves the ghost trace alone, as the base store's does. *)
Definition silent (d : Dispatch) : Prop :=
  ∀ action w r w', d action w = WDone r w' → trace w' = trace w.

Section Predicates.

Variable E : environment.

Definition quiet_listener (l : fnref) : Prop :=
  match l with
  | FUser id => quiet (listener_body E id)
  | FUnsub _ => True
  end.

(** The store as the reducer finds it: the call is logged (ghost) and
    [isDispatching] is set. *)
Definition entering (action : value) (st : store) : store :=
  set_isDispatching true (log_reducerCall action st).

(** "The current reducer, applied to the current state and [action],
    returns [v]", leaving the closure variables as in [st1].  While the
    reducer runs every dispatch is turned away at its guard, so one unit
    of fuel is all a dispatch called by the reducer can use. *)
Definition reducer_returns (st : store) (action v : value) (st1 : store)
    : Prop :=
  invoke_reducer E (store_dispatch E 1) (currentReducer st)
    (currentState st) action (entering action st)
  = Done (Ok v) st1.

Definition reducer_throws (st : store) (action : value) (e : error)
    (st1 : store) : Prop :=
  invoke_reducer E (store_dispatch E 1) (currentReducer st)
    (currentState st) action (entering action st)
  = Done (Err e) st1.

End Predicates.

(** ** Scenarios *)

Module Scenario.

Definition inc : value :=
  VObject (UserRef 0) PlainObject [("type"%string, VStr "inc")].

Definition type_is (action : value) (t : string) : bool :=
  match get_prop action "type" with
  | VStr s => String.eqb s t
  | _ => false
  end.

(** [(state = 0, action) => action.type === 'inc' ? state + 1 : state] *)
Definition counter (state action : value) : prog :=
  match state with
  | VNum n => if type_is action "inc" then Ret (VNum (n + 1)) else Ret state
  | _ => Ret (VNum 0)
  end.

(** The user's functions as reducers.
    0: the counter; 1: throws; 2: dispatches the action it was given;
    3: dispatches the number 42; 4: dispatches and swallows the error. *)
Definition reducers (id : nat) (state action : value) : prog :=
  match id with
  | 0 => counter state action
  | 1 => Throw (UserError (VStr "boom"))
  | 2 => call_then (CDispatch action) (λ _, Ret state)
  | 3 => call_then (CDispatch (VNum 42)) (λ _, Ret state)
  | 4 => Call (CDispatch action) (λ _, Ret state) (λ _, Ret state)
  | _ => Ret state
  end.

(** The user's functions as listeners.
    11: subscribes 12 and cancels subscription 1; 14: cancels
    subscription 0 (its own) and dispatches [inc]; the others return. *)
Definition listeners (id : nat) : prog :=
  match id with
  | 11 =>
      call_then (CSubscribe (VFunction (FUser 12)))
        (λ _, call_then (CUnsubscribe 1) (λ _, Ret VUndefined))
  | 14 =>
      call_then (CUnsubscribe 0)
        (λ _, call_then (CDispatch inc) (λ _, Ret VUndefined))
  | _ => Ret VUndefined
  end.

(** An enhancer that hands everything to the creator it was given. *)
Definition enhancers (f : fnref) (createStore : StoreCreator)
    (reducer preloadedState : value) : coutcome :=
  createStore reducer preloadedState VUndefined VUndefined.

Definition env : environment :=
  {| reducer_body := reducers;
     listener_body := listeners;
     enhancer_body := enhancers;
     randomString_INIT := "i";
     randomString_REPLACE := "r" |}.

Definition store_of (c : coutcome) : store :=
  match c with
  | CReturn _ st => st
  | _ => initial_store (FUser 0) VUndefined
  end.

Definition state_after (o : outcome) : store :=
  match o with
  | Done _ st => st
  | OutOfFuel => initial_store (FUser 0) VUndefined
  end.

(** [createStore(counter)] *)
Definition fresh : store :=
  store_of (createStore env 3 (VFunction (FUser 0)) VUndefined VUndefined
              VUndefined).

(** ... then [subscribe(l11); subscribe(l13)] *)
Definition two_listeners : store :=
  state_after (subscribe (VFunction (FUser 13))
    (state_after (subscribe (VFunction (FUser 11)) fresh))).

(** ... or [subscribe(l14)] *)
Definition one_dispatcher : store :=
  state_after (subscribe (VFunction (FUser 14)) fresh).

(** ... or [subscribe(l10); subscribe(l13)], two listeners that return *)
Definition two_inert : store :=
  state_after (subscribe (VFunction (FUser 13))
    (state_after (subscribe (VFunction (FUser 10)) fresh))).

(** [two_listeners] after [dispatch(inc)] *)
Definition two_listeners_next : store :=
  state_after (store_dispatch env 5 inc two_listeners).

(** [fresh] as the reducer finds it while [inc] is dispatched *)
Definition busy : store := entering inc fresh.

(** [two_inert] with user function [id] as its reducer *)
Definition with_reducer (id : nat) : store :=
  set_currentReducer (FUser id) two_inert.


(** An interceptor that passes the action on untouched. *)
Definition logger : Middleware := λ api next action w, next action w.

(** An interceptor that answers [null] itself and never calls [next]. *)
Definition blocker : Middleware :=
  λ api next action w, WDone (Ok VNull) w.

End Scenario.

(** ** The observable of the store

    [observable().subscribe(observer)], lines 318-354 of createStore.ts.
    The other method of that object, under the key of [symbol-observable],
    returns the object itself and is left out. *)

(** [if (v)]: the values that count as true. *)
Definition truthy (v : value) : bool :=
  match v with
  | VUndefined | VNull => false
  | VBool b => b
  | VNum n => negb (n =? 0)%Z
  | VStr s => negb (String.eqb s "")
  | VFunction _ | VObject _ _ _ | VStore => true
  end.

(** [typeof v === 'object' && v !== null] *)
Definition is_object (v : value) : bool :=
  match v with
  | VObject _ _ _ | VStore => true
  | _ => false
  end.

Section Observable.

Variable E : environment.

(** What user function [n] does when it is called as the [next] of an
    observer, with the state. *)
Variable next_body : nat → value → prog.

(** The closure [observeState] that one call of [subscribe] makes for its
    [observer]: [if (observer.next) observer.next(getState())]. *)
Definition observeState (observer : value) : prog :=
  let next := get_prop observer "next" in
  if truthy next then
    Call CGetState
      (λ state,
         match next with
         | VFunction (FUser n) => next_body n state
         | VFunction (FUnsub h) => Call (CUnsubscribe h) Ret Throw
         | _ => Throw TypeError
         end)
      Throw
  else Ret VUndefined.

(** The observable's [subscribe].  [observeState] is a function object of
    its own; [closure] is its identity, and what it does when it is called
    is, like for every function object, what the environment says for it:
    the statements about an observer assume
    [listener_body E closure = observeState observer]. *)
Definition observable_subscribe (dispatch : value → store → outcome)
    (closure : nat) (observer : value) (st : store) : outcome :=
  if negb (is_object observer) then Done (Err TypeError) st
  else
    (* observeState() *)
    match invoke_listener E dispatch (FUser closure) st with
    | OutOfFuel => OutOfFuel
    | Done (Err e) st1 => Done (Err e) st1
    | Done (Ok _) st1 =>
        (* const unsubscribe = outerSubscribe(observeState) *)
        match subscribe (VFunction (FUser closure)) st1 with
        | OutOfFuel => OutOfFuel
        | Done (Err e) st2 => Done (Err e) st2
        | Done (Ok unsubscribe) st2 =>
            (* return { unsubscribe } *)
            Done
              (Ok (VObject (EngineRef (created st2)) PlainObject
                     [("unsubscribe"%string, unsubscribe)]))
              (set_created (S (created st2)) st2)
        end
    end.

End Observable.

(** ** bindActionCreators *)

(** What [bindActionCreators] returns: one bound function, or an object of
    them under the keys of the action creators. *)
Inductive bound :=
  | BoundFunction (actionCreator : fnref)
  | BoundObject (fields : list (string * fnref)).

(** The store object's own methods are not among the function values of
    this development, so binding the store object itself is left out. *)
Inductive bind_outcome :=
  | BindReturn (b : bound)
  | BindThrow (e : error)
  | BindNotModelled.

(** The loop [for (const key in actionCreators)] over the keys [keys]:
    [actionCreators[key]] is read, and kept when it is a function. *)
Fixpoint bind_keys (keys : list string) (fields : list (string * value))
    : list (string * fnref) :=
  match keys with
  | [] => []
  | key :: keys' =>
      match assoc key fields with
      | VFunction actionCreator =>
          (key, actionCreator) :: bind_keys keys' fields
      | _ => bind_keys keys' fields
      end
  end.

Definition bindActionCreators (actionCreators : value) : bind_outcome :=
  match actionCreators with
  | VFunction f => BindReturn (BoundFunction f)
  | VObject _ _ fields =>
      BindReturn (BoundObject (bind_keys (fields.*1) fields))
  | VStore => BindNotModelled
  | _ => BindThrow InvalidArgument
  end.

(** [boundActionCreators[key]] *)
Fixpoint bound_field (key : string) (fields : list (string * fnref))
    : option fnref :=
  match fields with
  | [] => None
  | (k, f) :: rest => if String.eqb k key then Some f else bound_field key rest
  end.

Section BindActionCreator.

Variable E : environment.

(** What user function [n] does when it is called as an action creator,
    with the arguments. *)
Variable creator_body : nat → list value → prog.

(** [actionCreator.apply(this, args)] *)
Definition invoke_creator (store_dispatch : value → store → outcome)
    (actionCreator : fnref) (args : list value) (st : store) : outcome :=
  match actionCreator with
  | FUser n => run E store_dispatch (creator_body n args) st
  | FUnsub h => unsubscribe h st
  end.

(** The function that [bindActionCreator(actionCreator, dispatch)] returns,
    called with [args]: [dispatch(actionCreator.apply(this, args))]. *)
Definition bindActionCreator (store_dispatch : value → store → outcome)
    (actionCreator : fnref) (dispatch : value → store → outcome)
    (args : list value) (st : store) : outcome :=
  match invoke_creator store_dispatch actionCreator args st with
  | OutOfFuel => OutOfFuel
  | Done (Err e) st1 => Done (Err e) st1
  | Done (Ok action) st1 => dispatch action st1
  end.

End BindActionCreator.

(** ** More scenarios *)

Module More.

(** An observer whose [next] is user function 0, and one without [next]. *)
Definition watcher : value :=
  VObject (UserRef 7) PlainObject [("next"%string, VFunction (FUser 0))].
Definition blind : value := VObject (UserRef 8) PlainObject [].

(** As [next], user function 0 returns; as an action creator, user function
    0 makes the action [inc]. *)
Definition nexts (n : nat) (state : value) : prog := Ret VUndefined.
Definition creators (n : nat) (args : list value) : prog := Ret Scenario.inc.

(** The reducers of the scenario, with 5 one that starts by reading the
    state of the store. *)
Definition reducers (id : nat) (state action : value) : prog :=
  match id with
  | 5 => call_then CGetState (λ s, Ret s)
  | _ => Scenario.reducers id state action
  end.

(** The listeners of the scenario, with 20 and 21 the [observeState] of
    [watcher] and of [blind], and 30 a listener that throws. *)
Definition listeners (id : nat) : prog :=
  match id with
  | 20 => observeState nexts watcher
  | 21 => observeState nexts blind
  | 30 => Throw (UserError (VStr "bang"))
  | _ => Scenario.listeners id
  end.

Definition env : environment :=
  {| reducer_body := reducers;
     listener_body := listeners;
     enhancer_body := Scenario.enhancers;
     randomString_INIT := "i";
     randomString_REPLACE := "r" |}.

(** [createStore(counter)], then the observable subscribed to by [watcher] *)
Definition watched : store :=
  Scenario.state_after
    (observable_subscribe env (store_dispatch env 5) 20 watcher Scenario.fresh).

(** [createStore(counter)], then [subscribe(l30); subscribe(l10)] *)
Definition with_thrower : store :=
  Scenario.state_after (subscribe (VFunction (FUser 10))
    (Scenario.state_after (subscribe (VFunction (FUser 30)) Scenario.fresh))).

(** [createStore(counter)] with user function 5 put in as its reducer *)
Definition reading : store := set_currentReducer (FUser 5) Scenario.fresh.

(** The action creators of the scenario: one function, one number. *)
Definition creators_object : value :=
  VObject (UserRef 9) PlainObject
    [("increment"%string, VFunction (FUser 0)); ("version"%string, VNum 3)].

End More.

(** * Properties *)

(** ** Arrays of the host *)

Lemma indexOf_elem (x : fnref) (xs : list fnref) :
  x ∈ xs →
  ∃ k, indexOf x xs = Z.of_nat k ∧ k < length xs
       ∧ delete k xs = remove_first x xs.
Proof.
  induction xs as [|y xs IH]; intros Hin.
  - by apply elem_of_nil in Hin.
  - cbn [indexOf remove_first]. destruct (decide (y = x)) as [->|Hne].
    + exists 0. repeat split; cbn; lia.
    + apply elem_of_cons in Hin as [->|Hin]; [done|].
      destruct (IH Hin) as (k & Hk & Hlt & Hdel).
      exists (S k). rewrite Hk.
      destruct (Z.ltb_spec (Z.of_nat k) 0); [lia|].
      repeat split; [lia | cbn; lia |].
      change (delete (S k) (y :: xs)) with (y :: delete k xs).
      by rewrite Hdel.
Qed.

Lemma splice1_indexOf (x : fnref) (xs : list fnref) :
  x ∈ xs → splice1 (indexOf x xs) xs = remove_first x xs.
Proof.
  intros Hin. destruct (indexOf_elem x xs Hin) as (k & -> & Hlt & <-).
  unfold splice1. destruct (Z.ltb_spec (Z.of_nat k) 0); [lia|].
  f_equal. lia.
Qed.

Lemma remove_first_perm (x : fnref) (xs : list fnref) :
  x ∈ xs → xs ≡ₚ x :: remove_first x xs.
Proof.
  induction xs as [|y xs IH]; intros Hin.
  - by apply elem_of_nil in Hin.
  - cbn. destruct (decide (y = x)) as [->|Hne]; [done|].
    apply elem_of_cons in Hin as [->|Hin]; [done|].
    rewrite (IH Hin) at 1. apply Permutation_swap.
Qed.


(** Cancelling one live subscription takes its listener out of the live
    ones, once. *)
Lemma live_cancel (cl : list (fnref * bool)) (h : nat) (l : fnref) :
  cl !! h = Some (l, true) →
  (filter (λ c : fnref * bool, c.2 = true) cl).*1
  ≡ₚ l :: (filter (λ c : fnref * bool, c.2 = true) (<[h := (l, false)]> cl)).*1.
Proof.
  revert h. induction cl as [|c cl IH]; intros h Hh; [done|].
  destruct h as [|h]; cbn in Hh.
  - injection Hh as ->. cbn [insert list_insert].
    rewrite filter_cons_True by done. rewrite filter_cons_False; [done|].
    cbn. discriminate.
  - cbn [insert list_insert]. rewrite !filter_cons.
    destruct (decide (c.2 = true)); cbn.
    + rewrite (IH h Hh). apply Permutation_swap.
    + by apply IH.
Qed.

(** ** The growth relation *)

Lemma grows_refl (st : store) : grows st st.
Proof. split; [by intros d Hd | done | done]. Qed.

Lemma grows_trans (st1 st2 st3 : store) :
  grows st1 st2 → grows st2 st3 → grows st1 st3.
Proof.
  intros [F1 W1 C1] [F2 W2 C2]. split.
  - intros d Hd. destruct (F1 d Hd) as [Hd2 E2].
    destruct (F2 d Hd2) as [Hd3 E3]. split; [done | congruence].
  - auto.
  - by etrans.
Qed.

(** A step that touches neither the arrays nor the subscriptions. *)
Lemma grows_same (st st' : store) :
  arrays st' = arrays st →
  nextListeners st' = nextListeners st →
  currentListeners st' = currentListeners st →
  closures st' = closures st →
  reducerCalls st `prefix_of` reducerCalls st' →
  grows st st'.
Proof.
  intros Ha Hn Hc Hcl Hp. split; [| |done].
  - intros d [Hlt Hf]. unfold frozen, array_at. rewrite Ha, Hn, Hc. done.
  - intros [W1 W2 W3]. split.
    + by rewrite Ha, Hn.
    + rewrite Ha, Hc. done.
    + unfold registered, array_at, live_listeners in *.
      by rewrite Ha, Hn, Hcl.
Qed.

(** [currentListeners = nextListeners], at the start of the loop. *)
Lemma grows_sync (st : store) :
  grows st (set_currentListeners (Some (nextListeners st)) st).
Proof.
  split; [| |done].
  - intros d [Hlt Hf]. split; [|done]. split; [done|]. cbn. by intros ->.
  - intros [W1 W2 W3]. split; [done| |done].
    cbn. intros c [= <-]. done.
Qed.

Lemma ensure_fields (st : store) :
  currentReducer (ensureCanMutateNextListeners st) = currentReducer st
  ∧ currentState (ensureCanMutateNextListeners st) = currentState st
  ∧ currentListeners (ensureCanMutateNextListeners st) = currentListeners st
  ∧ isDispatching (ensureCanMutateNextListeners st) = isDispatching st
  ∧ closures (ensureCanMutateNextListeners st) = closures st
  ∧ created (ensureCanMutateNextListeners st) = created st
  ∧ reducerCalls (ensureCanMutateNextListeners st) = reducerCalls st.
Proof. unfold ensureCanMutateNextListeners. by case_decide. Qed.

Lemma ensure_registered (st : store) :
  registered (ensureCanMutateNextListeners st) = registered st.
Proof.
  unfold ensureCanMutateNextListeners. case_decide; [|done].
  unfold registered, array_at. cbn.
  by rewrite lookup_app_r, Nat.sub_diag by lia.
Qed.

Lemma ensure_next_lt (st : store) :
  nextListeners st < length (arrays st) →
  nextListeners (ensureCanMutateNextListeners st)
  < length (arrays (ensureCanMutateNextListeners st)).
Proof.
  unfold ensureCanMutateNextListeners. case_decide; [|done].
  cbn. rewrite length_app. cbn. lia.
Qed.

Lemma ensure_frozen (d : nat) (st : store) :
  frozen d st →
  d < length (arrays (ensureCanMutateNextListeners st))
  ∧ nextListeners (ensureCanMutateNextListeners st) ≠ d
  ∧ array_at (ensureCanMutateNextListeners st) d = array_at st d.
Proof.
  intros [Hlt Hf]. unfold ensureCanMutateNextListeners. case_decide as Hc.
  - cbn. rewrite length_app. cbn. repeat split; [lia | lia |].
    unfold array_at. cbn. by rewrite lookup_app_l.
  - repeat split; [done|]. intros Hn. apply Hc. rewrite Hn. auto.
Qed.

Lemma mutate_next_fields (f : list fnref → list fnref) (st : store) :
  currentReducer (mutate_next f st) = currentReducer st
  ∧ currentState (mutate_next f st) = currentState st
  ∧ currentListeners (mutate_next f st) = currentListeners st
  ∧ isDispatching (mutate_next f st) = isDispatching st
  ∧ closures (mutate_next f st) = closures st
  ∧ created (mutate_next f st) = created st
  ∧ reducerCalls (mutate_next f st) = reducerCalls st.
Proof. unfold mutate_next. cbn. apply ensure_fields. Qed.

Lemma mutate_next_registered (f : list fnref → list fnref) (st : store) :
  nextListeners st < length (arrays st) →
  registered (mutate_next f st) = f (registered st).
Proof.
  intros Hlt. apply ensure_next_lt in Hlt.
  rewrite <- (ensure_registered st). unfold mutate_next, registered, array_at.
  cbn. rewrite list_lookup_alter_eq.
  destruct (lookup_lt_is_Some_2 _ _ Hlt) as [a ->]. done.
Qed.

Lemma mutate_next_frozen (f : list fnref → list fnref) (d : nat) (st : store) :
  frozen d st →
  d < length (arrays (mutate_next f st))
  ∧ nextListeners (mutate_next f st) ≠ d
  ∧ array_at (mutate_next f st) d = array_at st d.
Proof.
  intros Hd. destruct (ensure_frozen d st Hd) as (Hlt & Hne & Harr).
  unfold mutate_next. cbn. rewrite length_alter. repeat split; [done..|].
  rewrite <- Harr. unfold array_at. cbn. by rewrite list_lookup_alter_ne.
Qed.

Lemma mutate_next_length (f : list fnref → list fnref) (st : store) :
  length (arrays st) ≤ length (arrays (mutate_next f st)).
Proof.
  unfold mutate_next, ensureCanMutateNextListeners. cbn.
  rewrite length_alter. case_decide; cbn; [rewrite length_app|]; lia.
Qed.

Lemma mutate_next_next_lt (f : list fnref → list fnref) (st : store) :
  nextListeners st < length (arrays st) →
  nextListeners (mutate_next f st) < length (arrays (mutate_next f st)).
Proof.
  intros Hlt. unfold mutate_next. cbn. rewrite length_alter.
  by apply ensure_next_lt.
Qed.

(** Changing the staging array and the subscriptions together, optionally
    nulling [currentListeners] afterwards. *)
Lemma mutate_next_grows (f : list fnref → list fnref)
    (cl : list (fnref * bool)) (null : bool) (st : store) :
  let st1 := mutate_next f (set_closures cl st) in
  let st' := if null then set_currentListeners None st1 else st1 in
  (wf st →
   f (registered st) ≡ₚ (filter (λ c : fnref * bool, c.2 = true) cl).*1) →
  grows st st'.
Proof.
  intros st1 st' Hperm.
  assert (Hfields := mutate_next_fields f (set_closures cl st)).
  destruct Hfields as (_ & _ & Hcur & _ & Hcl & _ & Hcalls).
  assert (Harr : arrays st' = arrays st1) by (subst st'; by destruct null).
  assert (Hnext : nextListeners st' = nextListeners st1)
    by (subst st'; by destruct null).
  split.
  - intros d Hd.
    destruct (mutate_next_frozen f d (set_closures cl st) Hd)
      as (Hlt & Hne & Ha).
    unfold frozen, array_at in *. rewrite Harr, Hnext. fold st1 in Hlt, Hne, Ha.
    split; [split; [done|by intros ?]|]. exact Ha.
  - intros [W1 W2 W3]. split.
    + rewrite Harr, Hnext. by apply mutate_next_next_lt.
    + intros c Hc.
      assert (currentListeners st = Some c) as Hc'.
      { subst st' st1. destruct null; [done|]. by rewrite Hcur in Hc. }
      rewrite Harr.
      pose proof (mutate_next_length f (set_closures cl st)) as Hlen.
      specialize (W2 c Hc'). subst st1.
      change (arrays (set_closures cl st)) with (arrays st) in Hlen. lia.
    + assert (registered st' = registered st1) as ->
        by (unfold registered, array_at; by rewrite Harr, Hnext).
      assert (live_listeners st' = (filter (λ c : fnref * bool, c.2 = true) cl).*1)
        as ->.
      { unfold live_listeners. f_equal. f_equal.
        subst st' st1. destruct null; exact Hcl. }
      subst st1. rewrite mutate_next_registered by done.
      apply Hperm. by split.
  - assert (reducerCalls st' = reducerCalls st) as ->; [|done].
    subst st' st1. destruct null; exact Hcalls.
Qed.

(** ** The operations one by one *)

Lemma getState_sound (st : store) (r : result) (st' : store) :
  getState st = Done r st' → st' = st.
Proof. unfold getState. destruct (isDispatching st); by intros [= _ <-]. Qed.

Lemma subscribe_idle (l : fnref) (st : store) :
  isDispatching st = false →
  subscribe (VFunction l) st
  = Done (Ok (VFunction (FUnsub (length (closures st)))))
      (mutate_next (λ a, a ++ [l])
         (set_closures (closures st ++ [(l, true)]) st)).
Proof. intros H. unfold subscribe. by rewrite H. Qed.

Lemma subscribe_sound (listener : value) (st : store) (r : result)
    (st' : store) :
  subscribe listener st = Done r st' →
  grows st st' ∧ isDispatching st' = isDispatching st
  ∧ currentState st' = currentState st
  ∧ currentReducer st' = currentReducer st
  ∧ reducerCalls st' = reducerCalls st.
Proof.
  destruct (isDispatching st) eqn:Hd.
  - unfold subscribe. rewrite Hd.
    destruct listener; intros [= _ <-]; auto using grows_refl.
  - destruct listener;
      try (intros [= _ <-]; by auto using grows_refl).
    rewrite subscribe_idle by done. intros [= _ <-].
    split.
    + apply (mutate_next_grows _ _ false). intros [_ _ W3].
      rewrite filter_app, fmap_app, W3. done.
    + destruct (mutate_next_fields (λ a, a ++ [f])
                  (set_closures (closures st ++ [(f, true)]) st))
        as (-> & -> & _ & -> & _ & _ & ->). done.
Qed.

Lemma live_elem (h : nat) (l : fnref) (st : store) :
  closures st !! h = Some (l, true) → wf st → l ∈ registered st.
Proof.
  intros Hh Hwf. rewrite (wf_registered _ Hwf). unfold live_listeners.
  apply list_elem_of_fmap. exists (l, true). split; [done|].
  apply list_elem_of_filter. split; [done|].
  by eapply list_elem_of_lookup_2.
Qed.

Lemma unsubscribe_idle_raw (h : nat) (l : fnref) (st : store) :
  isDispatching st = false →
  closures st !! h = Some (l, true) →
  unsubscribe h st
  = Done (Ok VUndefined)
      (set_currentListeners None
         (mutate_next (splice1 (indexOf l (registered st)))
            (set_closures (<[h := (l, false)]> (closures st)) st))).
Proof.
  intros Hd Hh. unfold unsubscribe. rewrite Hh, Hd. cbn [negb].
  unfold mutate_next. by rewrite ensure_registered.
Qed.

Lemma unsubscribe_idle (h : nat) (l : fnref) (st : store) :
  isDispatching st = false →
  closures st !! h = Some (l, true) →
  wf st →
  unsubscribe h st
  = Done (Ok VUndefined)
      (set_currentListeners None
         (mutate_next (remove_first l)
            (set_closures (<[h := (l, false)]> (closures st)) st))).
Proof.
  intros Hd Hh Hwf. rewrite (unsubscribe_idle_raw h l) by done.
  do 2 f_equal. unfold mutate_next. f_equal.
  apply list_alter_ext; [|done]. intros xs Hxs.
  pose proof (live_elem h l st Hh Hwf) as Hin.
  rewrite <- (ensure_registered
                (set_closures (<[h:=(l, false)]> (closures st)) st)) in Hin.
  assert (registered st = xs) as Hreg.
  { rewrite <- (ensure_registered
                  (set_closures (<[h:=(l, false)]> (closures st)) st)).
    unfold registered, array_at. by rewrite Hxs. }
  rewrite Hreg. apply splice1_indexOf.
  unfold registered, array_at in Hin. by rewrite Hxs in Hin.
Qed.

Lemma unsubscribe_sound (h : nat) (st : store) (r : result) (st' : store) :
  unsubscribe h st = Done r st' →
  grows st st' ∧ isDispatching st' = isDispatching st
  ∧ currentState st' = currentState st
  ∧ currentReducer st' = currentReducer st
  ∧ reducerCalls st' = reducerCalls st.
Proof.
  destruct (closures st !! h) as [[l [|]]|] eqn:Hh.
  - destruct (isDispatching st) eqn:Hd.
    + unfold unsubscribe. rewrite Hh, Hd. cbn.
      intros [= _ <-]; auto using grows_refl.
    + rewrite (unsubscribe_idle_raw h l) by done. intros [= _ <-]. split.
      * apply (mutate_next_grows _ _ true). intros Hwf.
        rewrite splice1_indexOf by (by eapply live_elem).
        apply (Permutation_cons_inv (a := l)).
        rewrite <- remove_first_perm by (by eapply live_elem).
        rewrite <- live_cancel by done. apply (wf_registered _ Hwf).
      * destruct (mutate_next_fields (splice1 (indexOf l (registered st)))
                    (set_closures (<[h:=(l, false)]> (closures st)) st))
          as (Hr & Hs & _ & Hi & _ & _ & Hc).
        repeat split;
          [etrans; [exact Hi | exact Hd] | exact Hs | exact Hr | exact Hc].
  - unfold unsubscribe. rewrite Hh. cbn.
    intros [= _ <-]; auto using grows_refl.
  - unfold unsubscribe. rewrite Hh.
    intros [= _ <-]; auto using grows_refl.
Qed.

(** ** The engine *)

Section Engine.

Variable E : environment.

Lemma dispatch_S (fuel : nat) (action : value) (st : store) :
  dispatch E (S fuel) action st =
    if negb (isPlainObject action) then
      (Done (Err InvalidActionShape) st, [])
    else if is_undefined (get_prop action "type") then
      (Done (Err MissingActionType) st, [])
    else if isDispatching st then
      (Done (Err ReentrantDispatch) st, [])
    else
      match invoke_reducer E (store_dispatch E fuel)
              (currentReducer st) (currentState st) action
              (entering action st) with
      | OutOfFuel => (OutOfFuel, [])
      | Done (Err e) st1 => (Done (Err e) (set_isDispatching false st1), [])
      | Done (Ok v) st1 =>
          let st2 := set_isDispatching false (set_currentState v st1) in
          let listeners := nextListeners st2 in
          let st3 := set_currentListeners (Some listeners) st2 in
          match notify E fuel listeners 0 st3 with
          | (Done (Ok _) st4, invoked) => (Done (Ok action) st4, invoked)
          | other => other
          end
      end.
Proof. reflexivity. Qed.

Lemma notify_S (fuel : nat) (listeners i : nat) (st : store) :
  notify E (S fuel) listeners i st =
    match array_at st listeners !! i with
    | None => (Done (Ok VUndefined) st, [])
    | Some listener =>
        match invoke_listener E (store_dispatch E fuel) listener st with
        | OutOfFuel => (OutOfFuel, [listener])
        | Done (Err e) st' => (Done (Err e) st', [listener])
        | Done (Ok _) st' =>
            let '(o, invoked) := notify E fuel listeners (S i) st' in
            (o, listener :: invoked)
        end
    end.
Proof. reflexivity. Qed.

Lemma valid_action_spec (action : value) :
  valid_action action = true ↔
  isPlainObject action = true ∧ is_undefined (get_prop action "type") = false.
Proof.
  unfold valid_action. rewrite andb_true_iff, negb_true_iff. done.
Qed.

(** While the reducer runs, a dispatch stops at its guard. *)
Lemma dispatch_rejected (fuel : nat) (action : value) (st : store) :
  isDispatching st = true →
  valid_action action = true →
  dispatch E (S fuel) action st = (Done (Err ReentrantDispatch) st, []).
Proof.
  intros Hd [Hp Ht]%valid_action_spec.
  by rewrite dispatch_S, Hp, Ht, Hd.
Qed.

Lemma dispatch_busy (fuel : nat) (action : value) (st : store)
    (r : result) (st' : store) :
  isDispatching st = true →
  store_dispatch E fuel action st = Done r st' →
  st' = st ∧ ∃ e, r = Err e.
Proof.
  intros Hd. unfold store_dispatch. destruct fuel as [|fuel]; [done|].
  rewrite dispatch_S, Hd.
  destruct (negb (isPlainObject action)); [intros [= <- <-]; eauto|].
  destruct (is_undefined (get_prop action "type"));
    intros [= <- <-]; eauto.
Qed.

Lemma replaceReducer_sound (disp : value → store → outcome)
    (nextReducer : value) (st : store) (r : result) (st' : store) :
  sound disp →
  replaceReducer E disp nextReducer st = Done r st' →
  grows st st' ∧ isDispatching st' = isDispatching st.
Proof.
  intros Hs. unfold replaceReducer.
  destruct nextReducer; try (intros [= _ <-]; by auto using grows_refl).
  destruct (disp _ _) as [|r2 st2] eqn:Hdisp; [done|].
  destruct (Hs _ _ _ _ Hdisp) as [Hg Hflag].
  assert (grows st st2 ∧ isDispatching st2 = isDispatching st) as Hgoal.
  { split; [|exact Hflag]. eapply grows_trans; [|exact Hg].
    by apply grows_same. }
  destruct r2; by intros [= _ <-].
Qed.

Lemma exec_call_sound (disp : value → store → outcome) (c : call)
    (st : store) (r : result) (st' : store) :
  sound disp →
  exec_call E disp c st = Done r st' →
  grows st st' ∧ isDispatching st' = isDispatching st.
Proof.
  intros Hs. destruct c; cbn [exec_call].
  - apply Hs.
  - intros <-%getState_sound. auto using grows_refl.
  - intros H%subscribe_sound. tauto.
  - intros H%unsubscribe_sound. tauto.
  - by apply replaceReducer_sound.
Qed.

Lemma run_sound (disp : value → store → outcome) (p : prog) :
  sound disp →
  ∀ st r st', run E disp p st = Done r st' →
    grows st st' ∧ isDispatching st' = isDispatching st.
Proof.
  intros Hs. induction p as [v|e|c k IHk h IHh]; intros st r st'; cbn [run].
  - intros [= _ <-]. auto using grows_refl.
  - intros [= _ <-]. auto using grows_refl.
  - destruct (exec_call E disp c st) as [|r1 st1] eqn:Hc; [done|].
    destruct (exec_call_sound _ _ _ _ _ Hs Hc) as [Hg Hf].
    destruct r1 as [v|e]; intros Hrun.
    + destruct (IHk v _ _ _ Hrun) as [Hg' Hf'].
      split; [by eapply grows_trans | congruence].
    + destruct (IHh e _ _ _ Hrun) as [Hg' Hf'].
      split; [by eapply grows_trans | congruence].
Qed.

Lemma invoke_reducer_sound (disp : value → store → outcome) (f : fnref)
    (state action : value) (st : store) (r : result) (st' : store) :
  sound disp →
  invoke_reducer E disp f state action st = Done r st' →
  grows st st' ∧ isDispatching st' = isDispatching st.
Proof.
  intros Hs. destruct f; cbn [invoke_reducer].
  - by apply run_sound.
  - intros H%unsubscribe_sound. tauto.
Qed.

Lemma invoke_listener_sound (disp : value → store → outcome) (f : fnref)
    (st : store) (r : result) (st' : store) :
  sound disp →
  invoke_listener E disp f st = Done r st' →
  grows st st' ∧ isDispatching st' = isDispatching st.
Proof.
  intros Hs. destruct f; cbn [invoke_listener].
  - by apply run_sound.
  - intros H%unsubscribe_sound. tauto.
Qed.

Lemma grows_entering (action : value) (st : store) :
  grows st (entering action st).
Proof. apply grows_same; try done. by apply prefix_app_r. Qed.

(** Every dispatch and every notification loop, however deeply nested,
    respects the growth relation and leaves the flag as it found it. *)
Lemma engine_sound (fuel : nat) :
  sound (store_dispatch E fuel)
  ∧ ∀ listeners i st r st' invoked,
      notify E fuel listeners i st = (Done r st', invoked) →
      grows st st' ∧ isDispatching st' = isDispatching st.
Proof.
  induction fuel as [|fuel [IHd IHn]]; [split; [intros ?|]; done|].
  split.
  - intros action st r st'. unfold store_dispatch. rewrite dispatch_S.
    destruct (negb (isPlainObject action));
      [intros [= _ <-]; by auto using grows_refl|].
    destruct (is_undefined (get_prop action "type"));
      [intros [= _ <-]; by auto using grows_refl|].
    destruct (isDispatching st) eqn:Hidle;
      [intros [= _ <-]; by auto using grows_refl|].
    destruct (invoke_reducer _ _ _ _ _ _) as [|r1 st1] eqn:Hred; [done|].
    destruct (invoke_reducer_sound _ _ _ _ _ _ _ IHd Hred) as [Hg1 Hf1].
    pose proof (grows_entering action st) as Hg0.
    destruct r1 as [v|e].
    + cbn zeta.
      destruct (notify _ _ _ _ _) as [[|r4 st4] invoked] eqn:Hn; [done|].
      destruct (IHn _ _ _ _ _ _ Hn) as [Hg4 Hf4].
      assert (grows st st4 ∧ isDispatching st4 = false) as Hgoal.
      { split; [|exact Hf4].
        eapply grows_trans; [exact Hg0|].
        eapply grows_trans; [exact Hg1|].
        eapply grows_trans; [|exact Hg4].
        eapply grows_trans; [|apply grows_sync]. by apply grows_same. }
      destruct r4; by intros [= _ <-].
    + intros [= _ <-]. split; [|done].
      eapply grows_trans; [exact Hg0|].
      eapply grows_trans; [exact Hg1|]. by apply grows_same.
  - intros listeners i st r st' invoked. rewrite notify_S.
    destruct (array_at st listeners !! i) as [l|];
      [|intros [= _ <- _]; by auto using grows_refl].
    destruct (invoke_listener _ _ _ _) as [|r1 st1] eqn:Hl; [done|].
    destruct (invoke_listener_sound _ _ _ _ _ IHd Hl) as [Hg1 Hf1].
    destruct r1 as [v|e]; [|by intros [= _ <- _]].
    destruct (notify _ _ _ _ _) as [o inv] eqn:Hn.
    intros [= -> _]. destruct (IHn _ _ _ _ _ _ Hn) as [Hg2 Hf2].
    split; [by eapply grows_trans | congruence].
Qed.

Lemma dispatch_sound (fuel : nat) : sound (store_dispatch E fuel).
Proof. apply engine_sound. Qed.

Lemma notify_sound (fuel listeners i : nat) (st : store) (r : result)
    (st' : store) (invoked : list fnref) :
  notify E fuel listeners i st = (Done r st', invoked) →
  grows st st' ∧ isDispatching st' = isDispatching st.
Proof. apply engine_sound. Qed.

(** *** The reducer phase *)

Lemma reducer_phase_refl (st : store) : reducer_phase st st.
Proof. by split. Qed.

Lemma reducer_phase_trans (st1 st2 st3 : store) :
  reducer_phase st1 st2 → reducer_phase st2 st3 → reducer_phase st1 st3.
Proof. intros [] []. split; congruence. Qed.

Lemma exec_call_busy (fuel : nat) (c : call) (st : store) (r : result)
    (st' : store) :
  isDispatching st = true →
  exec_call E (store_dispatch E fuel) c st = Done r st' →
  reducer_phase st st'.
Proof.
  intros Hd. destruct c; cbn [exec_call].
  - intros [-> _]%dispatch_busy; [apply reducer_phase_refl | done].
  - intros ->%getState_sound. apply reducer_phase_refl.
  - unfold subscribe. rewrite Hd.
    destruct listener; intros [= _ <-]; apply reducer_phase_refl.
  - unfold unsubscribe. rewrite Hd.
    destruct (closures st !! h) as [[l [|]]|]; cbn;
      intros [= _ <-]; apply reducer_phase_refl.
  - unfold replaceReducer.
    destruct nextReducer;
      try (intros [= _ <-]; apply reducer_phase_refl).
    destruct (store_dispatch _ _ _ _) as [|r2 st2] eqn:Hdisp; [done|].
    apply dispatch_busy in Hdisp as [-> _]; [|done].
    destruct r2; intros [= _ <-]; by split.
Qed.

Lemma run_busy (fuel : nat) (p : prog) :
  ∀ st r st', isDispatching st = true →
    run E (store_dispatch E fuel) p st = Done r st' →
    reducer_phase st st'.
Proof.
  induction p as [v|e|c k IHk h IHh]; intros st r st' Hd; cbn [run].
  - intros [= _ <-]. apply reducer_phase_refl.
  - intros [= _ <-]. apply reducer_phase_refl.
  - destruct (exec_call _ _ _ _) as [|r1 st1] eqn:Hc; [done|].
    pose proof (exec_call_busy _ _ _ _ _ Hd Hc) as Hp.
    assert (isDispatching st1 = true) as Hd1
      by (rewrite (phase_flag _ _ Hp); done).
    destruct r1; intros Hrun;
      (eapply reducer_phase_trans; [exact Hp|]); eauto.
Qed.

Lemma invoke_reducer_busy (fuel : nat) (f : fnref) (state action : value)
    (st : store) (r : result) (st' : store) :
  isDispatching st = true →
  invoke_reducer E (store_dispatch E fuel) f state action st = Done r st' →
  reducer_phase st st'.
Proof.
  intros Hd. destruct f; cbn [invoke_reducer].
  - by apply run_busy.
  - apply (exec_call_busy fuel (CUnsubscribe h)). done.
Qed.

(** A dispatch called by the reducer needs one unit of fuel, no more. *)
Lemma exec_call_busy_fuel (n m : nat) (c : call) (st : store) :
  isDispatching st = true →
  exec_call E (store_dispatch E (S n)) c st
  = exec_call E (store_dispatch E (S m)) c st.
Proof.
  intros Hd.
  assert (∀ a s, isDispatching s = true →
            store_dispatch E (S n) a s = store_dispatch E (S m) a s) as Hsame.
  { intros a s Hs. unfold store_dispatch. by rewrite !dispatch_S, Hs. }
  destruct c; cbn [exec_call]; try done.
  - by apply Hsame.
  - unfold replaceReducer. destruct nextReducer; try done.
    by rewrite Hsame.
Qed.

Lemma run_busy_fuel (n m : nat) (p : prog) :
  ∀ st, isDispatching st = true →
    run E (store_dispatch E (S n)) p st = run E (store_dispatch E (S m)) p st.
Proof.
  induction p as [v|e|c k IHk h IHh]; intros st Hd; cbn [run]; try done.
  rewrite (exec_call_busy_fuel n m) by done.
  destruct (exec_call _ _ _ _) as [|r1 st1] eqn:Hc; [done|].
  pose proof (exec_call_busy _ _ _ _ _ Hd Hc) as Hp.
  assert (isDispatching st1 = true) as Hd1
    by (rewrite (phase_flag _ _ Hp); done).
  destruct r1; auto.
Qed.

Lemma invoke_reducer_busy_fuel (n m : nat) (f : fnref)
    (state action : value) (st : store) :
  isDispatching st = true →
  invoke_reducer E (store_dispatch E (S n)) f state action st
  = invoke_reducer E (store_dispatch E (S m)) f state action st.
Proof.
  intros Hd. destruct f; cbn [invoke_reducer]; [|done].
  by apply run_busy_fuel.
Qed.

(** *** The notification loop reads a frozen array *)

Lemma notify_snapshot (fuel : nat) (d : nat) :
  ∀ i st r st' invoked,
    notify E fuel d i st = (Done r st', invoked) →
    frozen d st →
    invoked `prefix_of` drop i (array_at st d)
    ∧ (∀ v, r = Ok v → invoked = drop i (array_at st d)).
Proof.
  induction fuel as [|fuel IH]; intros i st r st' invoked; [done|].
  rewrite notify_S.
  destruct (array_at st d !! i) as [l|] eqn:Hl.
  - rewrite (drop_S _ _ _ Hl).
    destruct (invoke_listener _ _ _ _) as [|r1 st1] eqn:Hinv; [done|].
    destruct (invoke_listener_sound _ _ _ _ _ (dispatch_sound fuel) Hinv)
      as [Hg _].
    destruct r1 as [v1|e1].
    + destruct (notify _ _ _ _ _) as [o inv] eqn:Hn.
      intros [= -> <-] Hd.
      destruct (grows_frozen _ _ Hg d Hd) as [Hd1 Harr].
      destruct (IH _ _ _ _ _ Hn Hd1) as [Hpre Heq].
      rewrite Harr in Hpre, Heq. split.
      * by apply prefix_cons.
      * intros v Hv. f_equal. by eapply Heq.
    + intros [= <- <- <-] _. split; [|done].
      apply prefix_cons, prefix_nil.
  - intros [= <- <- <-] _. rewrite drop_ge; [done|].
    by apply lookup_ge_None.
Qed.

(** A dispatch invokes the listeners that were registered when it began:
    all of them, in order, when it returns; the first of them, up to the
    one that threw, when a listener throws. *)
Lemma dispatch_snapshot (fuel : nat) (action : value) (st : store)
    (r : result) (st' : store) (invoked : list fnref) :
  wf st →
  dispatch E fuel action st = (Done r st', invoked) →
  invoked `prefix_of` registered st
  ∧ (∀ v, r = Ok v → v = action ∧ invoked = registered st).
Proof.
  intros Hwf. destruct fuel as [|fuel]; [done|]. rewrite dispatch_S.
  destruct (negb (isPlainObject action));
    [intros [= <- _ <-]; split; [apply prefix_nil|done]|].
  destruct (is_undefined (get_prop action "type"));
    [intros [= <- _ <-]; split; [apply prefix_nil|done]|].
  destruct (isDispatching st) eqn:Hidle;
    [intros [= <- _ <-]; split; [apply prefix_nil|done]|].
  destruct (invoke_reducer _ _ _ _ _ _) as [|r1 st1] eqn:Hred; [done|].
  pose proof (invoke_reducer_busy fuel _ _ _ (entering action st) _ _
                eq_refl Hred) as Hp.
  destruct r1 as [v|e];
    [|intros [= <- _ <-]; split; [apply prefix_nil|done]].
  cbn zeta.
  set (st3 := set_currentListeners _ _).
  destruct (notify _ _ _ _ _) as [[|r4 st4] inv] eqn:Hn; [done|].
  assert (frozen (nextListeners st1) st3) as Hfro.
  { split; [|done]. cbn. rewrite (phase_arrays _ _ Hp), (phase_next _ _ Hp).
    apply Hwf. }
  destruct (notify_snapshot fuel (nextListeners st1) 0 st3 r4 st4 inv
              Hn Hfro) as [Hpre Heq].
  assert (array_at st3 (nextListeners st1) = registered st) as Harr.
  { unfold registered, array_at. cbn.
    by rewrite (phase_arrays _ _ Hp), (phase_next _ _ Hp). }
  rewrite drop_0, Harr in Hpre, Heq.
  destruct r4 as [v4|e4]; intros [= <- _ <-]; split; try done.
  intros ? [= <-]. split; [done|]. by eapply Heq.
Qed.

(** *** More fuel changes no answer *)

Lemma exec_call_extends (d1 d2 : value → store → outcome) (c : call)
    (st : store) (r : result) (st' : store) :
  extends d1 d2 →
  exec_call E d1 c st = Done r st' → exec_call E d2 c st = Done r st'.
Proof.
  intros Hext. destruct c; cbn [exec_call]; try done.
  - apply Hext.
  - unfold replaceReducer. destruct nextReducer; try done.
    destruct (d1 _ _) as [|r1 st1] eqn:H1; [done|].
    by rewrite (Hext _ _ _ _ H1).
Qed.

Lemma run_extends (d1 d2 : value → store → outcome) (p : prog) :
  extends d1 d2 →
  ∀ st r st', run E d1 p st = Done r st' → run E d2 p st = Done r st'.
Proof.
  intros Hext. induction p as [v|e|c k IHk h IHh]; intros st r st';
    cbn [run]; try done.
  destruct (exec_call E d1 c st) as [|r1 st1] eqn:H1; [done|].
  rewrite (exec_call_extends _ _ _ _ _ _ Hext H1).
  destruct r1; auto.
Qed.

Lemma invoke_reducer_extends (d1 d2 : value → store → outcome) (f : fnref)
    (state action : value) (st : store) (r : result) (st' : store) :
  extends d1 d2 →
  invoke_reducer E d1 f state action st = Done r st' →
  invoke_reducer E d2 f state action st = Done r st'.
Proof.
  intros Hext. destruct f; cbn [invoke_reducer]; [|done].
  by apply run_extends.
Qed.

Lemma invoke_listener_extends (d1 d2 : value → store → outcome) (f : fnref)
    (st : store) (r : result) (st' : store) :
  extends d1 d2 →
  invoke_listener E d1 f st = Done r st' →
  invoke_listener E d2 f st = Done r st'.
Proof.
  intros Hext. destruct f; cbn [invoke_listener]; [|done].
  by apply run_extends.
Qed.

Lemma fuel_step (fuel : nat) :
  (∀ a st r st' invoked,
     dispatch E fuel a st = (Done r st', invoked) →
     dispatch E (S fuel) a st = (Done r st', invoked))
  ∧ (∀ d i st r st' invoked,
       notify E fuel d i st = (Done r st', invoked) →
       notify E (S fuel) d i st = (Done r st', invoked)).
Proof.
  induction fuel as [|fuel [IHd IHn]]; [done|].
  assert (extends (store_dispatch E fuel) (store_dispatch E (S fuel)))
    as Hext.
  { intros a st r st'. unfold store_dispatch.
    destruct (dispatch E fuel a st) as [o inv] eqn:H. cbn [fst].
    intros ->. by rewrite (IHd _ _ _ _ _ H). }
  split.
  - intros a st r st' invoked.
    rewrite (dispatch_S (S fuel)), (dispatch_S fuel).
    destruct (negb (isPlainObject a)); [done|].
    destruct (is_undefined (get_prop a "type")); [done|].
    destruct (isDispatching st); [done|].
    destruct (invoke_reducer E (store_dispatch E fuel) _ _ _ _)
      as [|r1 st1] eqn:Hred; [done|].
    rewrite (invoke_reducer_extends _ _ _ _ _ _ _ _ Hext Hred).
    destruct r1 as [v|e]; [|done]. cbn zeta.
    destruct (notify E fuel _ _ _) as [[|r4 st4] inv] eqn:Hn; [done|].
    by rewrite (IHn _ _ _ _ _ _ Hn).
  - intros d i st r st' invoked.
    rewrite (notify_S (S fuel)), (notify_S fuel).
    destruct (array_at st d !! i) as [l|]; [|done].
    destruct (invoke_listener E (store_dispatch E fuel) _ _)
      as [|r1 st1] eqn:Hl; [done|].
    rewrite (invoke_listener_extends _ _ _ _ _ _ Hext Hl).
    destruct r1 as [v|e]; [|done].
    destruct (notify E fuel _ _ _) as [o inv] eqn:Hn.
    intros [= -> <-]. by rewrite (IHn _ _ _ _ _ _ Hn).
Qed.

Lemma dispatch_fuel_mono (n m : nat) (a : value) (st : store) (r : result)
    (st' : store) (invoked : list fnref) :
  n ≤ m →
  dispatch E n a st = (Done r st', invoked) →
  dispatch E m a st = (Done r st', invoked).
Proof.
  induction 1 as [|m _ IH]; [done|]. intros H. by apply fuel_step, IH.
Qed.

Lemma notify_fuel_mono (n m : nat) (d i : nat) (st : store) (r : result)
    (st' : store) (invoked : list fnref) :
  n ≤ m →
  notify E n d i st = (Done r st', invoked) →
  notify E m d i st = (Done r st', invoked).
Proof.
  induction 1 as [|m _ IH]; [done|]. intros H. by apply fuel_step, IH.
Qed.

Lemma store_dispatch_extends (n m : nat) :
  n ≤ m → extends (store_dispatch E n) (store_dispatch E m).
Proof.
  intros Hle a st r st'. unfold store_dispatch.
  destruct (dispatch E n a st) as [o inv] eqn:H. cbn [fst]. intros ->.
  by rewrite (dispatch_fuel_mono n m _ _ _ _ _ Hle H).
Qed.

(** Two runs that both finish agree. *)
Lemma dispatch_deterministic (n m : nat) (a : value) (st : store)
    (r1 r2 : result) (st1 st2 : store) (inv1 inv2 : list fnref) :
  dispatch E n a st = (Done r1 st1, inv1) →
  dispatch E m a st = (Done r2 st2, inv2) →
  r1 = r2 ∧ st1 = st2 ∧ inv1 = inv2.
Proof.
  intros H1 H2.
  apply (dispatch_fuel_mono n (n `max` m)) in H1; [|lia].
  apply (dispatch_fuel_mono m (n `max` m)) in H2; [|lia].
  rewrite H1 in H2. by injection H2.
Qed.

(** *** Listeners that do not dispatch *)

Lemma subscribe_done (listener : value) (st : store) :
  ∃ r st', subscribe listener st = Done r st'.
Proof.
  unfold subscribe. destruct listener, (isDispatching st); eauto.
Qed.

Lemma unsubscribe_done (h : nat) (st : store) :
  ∃ r st', unsubscribe h st = Done r st'.
Proof.
  unfold unsubscribe.
  destruct (closures st !! h) as [[l [|]]|], (isDispatching st); cbn; eauto.
Qed.

Lemma settled_trans (st1 st2 st3 : store) :
  settled st1 st2 → settled st2 st3 → settled st1 st3.
Proof. unfold settled. intros (?&?&?&?) (?&?&?&?). repeat split; congruence. Qed.

Lemma run_quiet (disp : value → store → outcome) (p : prog) :
  quiet p →
  ∀ st, ∃ r st', run E disp p st = Done r st' ∧ settled st st'.
Proof.
  induction p as [v|e|c k IHk h IHh]; intros Hq st; cbn [run].
  - by eexists _, _.
  - by eexists _, _.
  - destruct Hq as (Hc & Hk & Hh).
    assert (∃ r1 st1, exec_call E disp c st = Done r1 st1 ∧ settled st st1)
      as (r1 & st1 & -> & Hs1).
    { destruct c; try done; cbn [exec_call].
      - unfold getState. destruct (isDispatching st); by eexists _, _.
      - destruct (subscribe_done listener st) as (r1 & st1 & H1).
        exists r1, st1. split; [done|].
        apply subscribe_sound in H1. unfold settled. tauto.
      - destruct (unsubscribe_done h0 st) as (r1 & st1 & H1).
        exists r1, st1. split; [done|].
        apply unsubscribe_sound in H1. unfold settled. tauto. }
    destruct r1 as [v|e].
    + destruct (IHk v (Hk v) st1) as (r & st' & -> & Hs).
      eexists _, _. split; [done|]. by eapply settled_trans.
    + destruct (IHh e (Hh e) st1) as (r & st' & -> & Hs).
      eexists _, _. split; [done|]. by eapply settled_trans.
Qed.

Lemma invoke_listener_quiet (disp : value → store → outcome) (l : fnref)
    (st : store) :
  quiet_listener E l →
  ∃ r st', invoke_listener E disp l st = Done r st' ∧ settled st st'.
Proof.
  destruct l as [id|h]; cbn [invoke_listener quiet_listener]; intros Hq.
  - by apply run_quiet.
  - destruct (unsubscribe_done h st) as (r1 & st1 & H1).
    exists r1, st1. split; [done|].
    apply unsubscribe_sound in H1. unfold settled. tauto.
Qed.

Lemma notify_quiet (fuel : nat) (d : nat) :
  ∀ i st,
    frozen d st →
    (∀ l, l ∈ array_at st d → quiet_listener E l) →
    length (array_at st d) - i < fuel →
    ∃ r st' invoked,
      notify E fuel d i st = (Done r st', invoked) ∧ settled st st'.
Proof.
  induction fuel as [|fuel IH]; intros i st Hfro Hq Hlen; [lia|].
  rewrite notify_S.
  destruct (array_at st d !! i) as [l|] eqn:Hl;
    [|by eexists _, _, _].
  assert (quiet_listener E l) as Hql
    by (eapply Hq, list_elem_of_lookup_2; done).
  destruct (invoke_listener_quiet (store_dispatch E fuel) l st Hql)
    as (r1 & st1 & Hinv & Hs1).
  rewrite Hinv.
  destruct (invoke_listener_sound _ _ _ _ _ (dispatch_sound fuel) Hinv)
    as [Hg _].
  destruct r1 as [v|e]; [|by eexists _, _, _].
  destruct (grows_frozen _ _ Hg d Hfro) as [Hfro1 Harr].
  apply lookup_lt_Some in Hl.
  destruct (IH (S i) st1 Hfro1) as (r & st' & inv & -> & Hs).
  - by rewrite Harr.
  - rewrite Harr. lia.
  - eexists _, _, _. split; [done|]. by eapply settled_trans.
Qed.

(** A loop that ends with an exception has invoked the listener that
    threw it. *)
Lemma notify_throws (fuel d i : nat) (st : store) (e : error) (st' : store)
    (invoked : list fnref) :
  notify E fuel d i st = (Done (Err e) st', invoked) → invoked ≠ [].
Proof.
  destruct fuel as [|fuel]; [done|]. rewrite notify_S.
  destruct (array_at st d !! i) as [l|]; [|done].
  destruct (invoke_listener _ _ _ _) as [|[v|e1] st1]; [done| |].
  - destruct (notify _ _ _ _ _). by intros [= _ <-].
  - by intros [= _ _ <-].
Qed.

(** An accepted dispatch starts by calling the current reducer with the
    current state. *)
Lemma dispatch_logs (fuel : nat) (action : value) (st : store) (r : result)
    (st' : store) (invoked : list fnref) :
  isDispatching st = false →
  valid_action action = true →
  dispatch E fuel action st = (Done r st', invoked) →
  ∃ rest, reducerCalls st'
          = reducerCalls st
            ++ (currentReducer st, currentState st, action) :: rest.
Proof.
  intros Hidle [Hp Ht]%valid_action_spec.
  destruct fuel as [|fuel]; [done|]. rewrite dispatch_S, Hp, Ht, Hidle.
  cbn [negb].
  destruct (invoke_reducer _ _ _ _ _ _) as [|r1 st1] eqn:Hred; [done|].
  pose proof (invoke_reducer_busy fuel _ _ _ (entering action st) _ _
                eq_refl Hred) as Hph.
  pose proof (phase_calls _ _ Hph) as Hcalls. cbn in Hcalls.
  destruct r1 as [v|e]; [|intros [= _ <- _]; by exists []].
  cbn zeta. destruct (notify _ _ _ _ _) as [[|r4 st4] inv] eqn:Hn; [done|].
  apply notify_sound in Hn as [Hg _].
  destruct (grows_calls _ _ Hg) as [rest Hrest]. cbn in Hrest.
  rewrite Hcalls, <- app_assoc in Hrest.
  destruct r4; intros [= _ <- _]; by exists rest.
Qed.

(** A dispatch whose reducer returns and whose listeners do not dispatch:
    it finishes, and the state it leaves is what the reducer returned. *)
Lemma dispatch_settles (st : store) (action v : value) (st1 : store) :
  wf st →
  isDispatching st = false →
  valid_action action = true →
  reducer_returns E st action v st1 →
  (∀ l, l ∈ registered st → quiet_listener E l) →
  ∃ fuel r st' invoked,
    dispatch E fuel action st = (Done r st', invoked)
    ∧ currentState st' = v
    ∧ currentReducer st' = currentReducer st1
    ∧ isDispatching st' = false
    ∧ reducerCalls st'
      = reducerCalls st ++ [(currentReducer st, currentState st, action)]
    ∧ (r = Ok action ∨ ∃ e, r = Err e ∧ invoked ≠ []).
Proof.
  intros Hwf Hidle [Hp Ht]%valid_action_spec Hred Hq.
  unfold reducer_returns in Hred.
  pose proof (invoke_reducer_busy 1 _ _ _ (entering action st) _ _
                eq_refl Hred) as Hph.
  set (n := S (length (registered st))).
  exists (S (S n)). rewrite dispatch_S, Hp, Ht, Hidle. cbn [negb].
  rewrite (invoke_reducer_busy_fuel n 0) by done. rewrite Hred. cbn zeta.
  set (st3 := set_currentListeners _ _).
  assert (array_at st3 (nextListeners st1) = registered st) as Harr.
  { unfold registered, array_at. cbn.
    by rewrite (phase_arrays _ _ Hph), (phase_next _ _ Hph). }
  destruct (notify_quiet (S n) (nextListeners st1) 0 st3)
    as (r & st' & inv & Hn & Hs).
  - split; [|done]. cbn.
    rewrite (phase_arrays _ _ Hph), (phase_next _ _ Hph). apply Hwf.
  - by rewrite Harr.
  - rewrite Harr. subst n. lia.
  - change (nextListeners (set_isDispatching false (set_currentState v st1)))
      with (nextListeners st1).
    rewrite Hn. destruct Hs as (Hs1 & Hs2 & Hs3 & Hs4).
    assert (currentState st' = v ∧ currentReducer st' = currentReducer st1
            ∧ isDispatching st' = false
            ∧ reducerCalls st'
              = reducerCalls st
                ++ [(currentReducer st, currentState st, action)])
      as (G1 & G2 & G3 & G4).
    { rewrite Hs1, Hs2, Hs3, Hs4. repeat split.
      cbn. by rewrite (phase_calls _ _ Hph). }
    destruct r as [u|e]; eexists _, _, _; (split; [done|]);
      repeat (split; [done|]); [by left|right].
    exists e. split; [done|]. by eapply notify_throws.
Qed.

End Engine.

(** ** What subscribe and unsubscribe do to the next snapshot *)

Lemma subscribe_registers (l : fnref) (st : store) :
  wf st → isDispatching st = false →
  ∃ st', subscribe (VFunction l) st
         = Done (Ok (VFunction (FUnsub (length (closures st))))) st'
         ∧ registered st' = registered st ++ [l]
         ∧ closures st' = closures st ++ [(l, true)]
         ∧ wf st'.
Proof.
  intros Hwf Hidle. eexists. split; [by apply subscribe_idle|].
  split; [|split].
  - rewrite mutate_next_registered; [done | apply Hwf].
  - by destruct (mutate_next_fields (λ a, a ++ [l])
                   (set_closures (closures st ++ [(l, true)]) st))
      as (_ & _ & _ & _ & -> & _).
  - pose proof (subscribe_idle l st Hidle) as H.
    apply subscribe_sound in H as [Hg _]. by apply Hg.
Qed.

Lemma unsubscribe_unregisters (h : nat) (l : fnref) (st : store) :
  wf st → isDispatching st = false →
  closures st !! h = Some (l, true) →
  ∃ st', unsubscribe h st = Done (Ok VUndefined) st'
         ∧ registered st' = remove_first l (registered st)
         ∧ closures st' = <[h := (l, false)]> (closures st)
         ∧ wf st'.
Proof.
  intros Hwf Hidle Hh. eexists. split; [by apply unsubscribe_idle|].
  split; [|split].
  - change (registered (set_currentListeners None ?x)) with (registered x).
    rewrite mutate_next_registered; [done | apply Hwf].
  - change (closures (set_currentListeners None ?x)) with (closures x).
    by destruct (mutate_next_fields (remove_first l)
                   (set_closures (<[h := (l, false)]> (closures st)) st))
      as (_ & _ & _ & _ & -> & _).
  - pose proof (unsubscribe_idle h l st Hidle Hh Hwf) as H.
    apply unsubscribe_sound in H as [Hg _]. by apply Hg.
Qed.

(** Calling the closure again changes nothing and does not throw. *)
Lemma unsubscribe_again (h : nat) (l : fnref) (st : store) :
  closures st !! h = Some (l, false) →
  unsubscribe h st = Done (Ok VUndefined) st.
Proof. intros Hh. unfold unsubscribe. by rewrite Hh. Qed.

Lemma initial_store_wf (r : fnref) (preloadedState : value) :
  wf (initial_store r preloadedState).
Proof.
  split; cbn; [lia | intros c [= <-]; lia | done].
Qed.

(** * The claims *)

Section Claims.

Variable E : environment.



(** C1, as amended.  On an idle store whose reducer returns [v] for
    the current state and a valid [action], and whose registered
    listeners neither dispatch nor replace the reducer: the dispatch
    finishes, and however it finishes the state it leaves is [v], which
    is what [getState()] then returns (the very value: the state given,
    if the reducer returned the state given); when the dispatch returns,
    it returns [action] itself. *)
Theorem dispatch_forwards_reducer_result (st : store) (action v : value)
    (st1 : store) :
  wf st →
  isDispatching st = false →
  valid_action action = true →
  reducer_returns E st action v st1 →
  (∀ l, l ∈ registered st → quiet_listener E l) →
  (∃ fuel r st' invoked, dispatch E fuel action st = (Done r st', invoked))
  ∧ (∀ fuel r st' invoked,
       dispatch E fuel action st = (Done r st', invoked) →
       getState st' = Done (Ok v) st'
       ∧ (v = currentState st → currentState st' = currentState st)
       ∧ (∀ x, r = Ok x → x = action)).
Proof.
  intros Hwf Hidle Hvalid Hred Hq.
  destruct (dispatch_settles E st action v st1 Hwf Hidle Hvalid Hred Hq)
    as (fuel0 & r0 & st0 & inv0 & Hd0 & Hv & _ & Hi & _).
  split; [by eauto|].
  intros fuel r st' invoked Hd.
  destruct (dispatch_deterministic E _ _ _ _ _ _ _ _ _ _ Hd0 Hd)
    as (<- & <- & <-).
  split; [|split].
  - unfold getState. by rewrite Hi, Hv.
  - intros <-. done.
  - intros x ->. by eapply (dispatch_snapshot E _ _ _ _ _ _ Hwf Hd).
Qed.

(** C3.  When the reducer throws [e] during the dispatch of a valid
    action on an idle store, [dispatch] throws [e]; the state is the one
    before the dispatch, no listener was invoked and none was added or
    removed, and [isDispatching] is false again.  The store stays usable:
    a later dispatch of a valid action for which the reducer returns
    [v2] runs that reducer and leaves the state [v2], and it returns the
    action unless one of its listeners throws (the listeners assumed not
    to dispatch themselves). *)
Theorem reducer_exception_propagates (fuel : nat) (st : store)
    (action : value) (e : error) (st1 : store) :
  isDispatching st = false →
  valid_action action = true →
  reducer_throws E st action e st1 →
  let st' := set_isDispatching false st1 in
  dispatch E (S (S fuel)) action st = (Done (Err e) st', [])
  ∧ currentState st' = currentState st
  ∧ registered st' = registered st
  ∧ isDispatching st' = false
  ∧ (wf st →
     ∀ b v2 st2,
       valid_action b = true →
       reducer_returns E st' b v2 st2 →
       (∀ l, l ∈ registered st' → quiet_listener E l) →
       ∃ fuel' r' st'' invoked',
         dispatch E fuel' b st' = (Done r' st'', invoked')
         ∧ currentState st'' = v2
         ∧ reducerCalls st''
           = reducerCalls st' ++ [(currentReducer st', currentState st', b)]
         ∧ (r' = Ok b ∨ ∃ e', r' = Err e' ∧ invoked' ≠ [])).
Proof.
  intros Hidle Hvalid Hred st'.
  pose proof Hvalid as [Hp Ht]%valid_action_spec.
  unfold reducer_throws in Hred.
  pose proof (invoke_reducer_busy E 1 _ _ _ (entering action st) _ _
                eq_refl Hred) as Hph.
  split; [|split; [|split; [|split]]].
  - rewrite dispatch_S, Hp, Ht, Hidle. cbn [negb].
    by rewrite (invoke_reducer_busy_fuel E fuel 0), Hred.
  - exact (phase_state _ _ Hph).
  - unfold registered, array_at. cbn.
    by rewrite (phase_arrays _ _ Hph), (phase_next _ _ Hph).
  - done.
  - intros Hwf b v2 st2 Hb Hret Hq.
    assert (wf st') as Hwf'.
    { assert (store_dispatch E (S (S fuel)) action st = Done (Err e) st')
        as Hs.
      { unfold store_dispatch. rewrite dispatch_S, Hp, Ht, Hidle. cbn [negb].
        by rewrite (invoke_reducer_busy_fuel E fuel 0), Hred. }
      apply dispatch_sound in Hs as [Hg _]. by apply Hg. }
    destruct (dispatch_settles E st' b v2 st2 Hwf' eq_refl Hb Hret Hq)
      as (f' & r' & st'' & inv' & Hd & Hv & _ & _ & Hc & Hr).
    by eexists _, _, _, _.
Qed.

(** C4, as amended.  While the reducer runs, a call of [dispatch] stops
    at the first guard that applies and changes nothing: no reducer is
    invoked, no state assigned, no listener notified.  With a valid
    action that guard is the reentrancy guard; with a value that is not a
    plain object, or has no [type], it is the guard for that, which comes
    first.  The error is thrown at the reducer, whose handler, if any,
    takes over.  When a reducer starts by dispatching a valid action and
    does not catch the error, the outer dispatch throws ReentrantDispatch,
    the state is unchanged and [isDispatching] is reset. *)
Theorem reentrant_dispatch_rejected (fuel : nat) :
  (∀ st b,
     isDispatching st = true →
     dispatch E (S fuel) b st = (Done (Err (rejection b)) st, [])
     ∧ (valid_action b = true → rejection b = ReentrantDispatch))
  ∧ (∀ st b k h,
       isDispatching st = true →
       valid_action b = true →
       run E (store_dispatch E (S fuel)) (Call (CDispatch b) k h) st
       = run E (store_dispatch E (S fuel)) (h ReentrantDispatch) st)
  ∧ (∀ st a b id k,
       isDispatching st = false →
       valid_action a = true →
       valid_action b = true →
       currentReducer st = FUser id →
       reducer_body E id (currentState st) a = call_then (CDispatch b) k →
       ∃ st', dispatch E (S (S fuel)) a st
              = (Done (Err ReentrantDispatch) st', [])
              ∧ currentState st' = currentState st
              ∧ isDispatching st' = false
              ∧ registered st' = registered st
              ∧ reducerCalls st'
                = reducerCalls st ++ [(FUser id, currentState st, a)]).
Proof.
  split.
  - intros st b Hd. split.
    + rewrite dispatch_S, Hd. unfold rejection.
      destruct (negb (isPlainObject b)); [done|].
      by destruct (is_undefined (get_prop b "type")).
    + intros [Hp Ht]%valid_action_spec. unfold rejection.
      by rewrite Hp, Ht.
  - split.
    { intros st b k h Hd Hb. cbn [run exec_call]. unfold store_dispatch.
      by rewrite dispatch_rejected. }
    intros st a b id k Hidle [Hpa Hta]%valid_action_spec Hb Hcur Hbody.
    eexists. split.
    + rewrite dispatch_S, Hpa, Hta, Hidle. cbn [negb].
      rewrite Hcur. cbn [invoke_reducer]. rewrite Hbody.
      unfold call_then. cbn [run exec_call]. unfold store_dispatch.
      rewrite dispatch_rejected by done. cbn [fst run]. done.
    + cbn. by rewrite Hcur.
Qed.

Lemma replaceReducer_function (d : value → store → outcome) (f : fnref)
    (st : store) :
  replaceReducer E d (VFunction f) st =
    match d (action_of_type (created st) (ActionTypes_REPLACE E))
            (set_created (S (created st)) (set_currentReducer f st)) with
    | OutOfFuel => OutOfFuel
    | Done (Err e) st2 => Done (Err e) st2
    | Done (Ok _) st2 => Done (Ok VStore) st2
    end.
Proof. reflexivity. Qed.

(** C7, as amended.  On an idle store whose registered listeners neither
    dispatch nor replace the reducer, and for a reducer [f] that returns
    [v] for the prior state and the synthetic replace action (without
    itself calling [replaceReducer]): [replaceReducer(f)] finishes, and
    when it has, [getState()] returns [v], the current reducer is [f],
    what it returned is the store, and every later dispatch of a valid
    action begins by invoking [f], with the state [v]. *)
Theorem replaceReducer_continuity (st : store) (f : fnref) (v : value)
    (st1 : store) :
  let replace := action_of_type (created st) (ActionTypes_REPLACE E) in
  let st0 := set_created (S (created st)) (set_currentReducer f st) in
  wf st →
  isDispatching st = false →
  reducer_returns E st0 replace v st1 →
  currentReducer st1 = f →
  (∀ l, l ∈ registered st → quiet_listener E l) →
  (∃ fuel r st',
     replaceReducer E (store_dispatch E fuel) (VFunction f) st = Done r st')
  ∧ (∀ fuel r st',
       replaceReducer E (store_dispatch E fuel) (VFunction f) st
       = Done r st' →
       getState st' = Done (Ok v) st'
       ∧ currentReducer st' = f
       ∧ (∀ x, r = Ok x → x = VStore)
       ∧ (∀ fuel' b r' st'' invoked,
            valid_action b = true →
            dispatch E fuel' b st' = (Done r' st'', invoked) →
            ∃ rest, reducerCalls st''
                    = reducerCalls st' ++ (f, v, b) :: rest)).
Proof.
  intros replace st0 Hwf Hidle Hred Hkeep Hq.
  assert (wf st0) as Hwf0.
  { assert (grows st st0) as Hg by (by apply grows_same). by apply Hg. }
  destruct (dispatch_settles E st0 replace v st1 Hwf0 Hidle eq_refl Hred Hq)
    as (fuel0 & r0 & st2 & inv0 & Hd0 & Hv & Hcur & Hi & _).
  split.
  - exists fuel0. rewrite replaceReducer_function. unfold store_dispatch.
    fold replace st0. rewrite Hd0. cbn [fst]. destruct r0; eauto.
  - intros fuel r st'. rewrite replaceReducer_function.
    unfold store_dispatch. fold replace st0.
    destruct (dispatch E fuel replace st0) as [[|r1 st'1] inv1] eqn:Hd;
      [done|]. cbn [fst].
    destruct (dispatch_deterministic E _ _ _ _ _ _ _ _ _ _ Hd0 Hd)
      as (<- & <- & <-).
    intros Hres.
    assert (st' = st2) as -> by (destruct r0; by injection Hres).
    split; [|split; [|split]].
    + unfold getState. by rewrite Hi, Hv.
    + congruence.
    + intros x ->. destruct r0; by injection Hres.
    + intros fuel' b r' st'' invoked Hb Hd'.
      destruct (dispatch_logs E _ _ _ _ _ _ Hi Hb Hd') as [rest Hrest].
      exists rest. rewrite Hrest. do 3 f_equal; congruence.
Qed.

(** C8.  While a dispatch is in progress, that is, while [isDispatching]
    is set, which is from before the reducer is called until it has
    returned or thrown: [subscribe(listener)] throws ReentrantSubscribe
    and the first call of an unsubscribe function throws
    ReentrantUnsubscribe, both leaving the store, and so the registered
    listeners, as they were; user code making the call finds itself in its
    handler for that error.  The reducer is run with the flag set, and
    nothing it calls can clear it or change the registry. *)
Theorem reentrant_subscription_rejected (st : store) (l : fnref) :
  isDispatching st = true →
  subscribe (VFunction l) st = Done (Err ReentrantSubscribe) st
  ∧ (∀ h c, closures st !! h = Some (c, true) →
       unsubscribe h st = Done (Err ReentrantUnsubscribe) st)
  ∧ (∀ fuel k h,
       run E (store_dispatch E fuel) (Call (CSubscribe (VFunction l)) k h) st
       = run E (store_dispatch E fuel) (h ReentrantSubscribe) st)
  ∧ (∀ fuel hd c k h,
       closures st !! hd = Some (c, true) →
       run E (store_dispatch E fuel) (Call (CUnsubscribe hd) k h) st
       = run E (store_dispatch E fuel) (h ReentrantUnsubscribe) st)
  ∧ (∀ action st0, isDispatching (entering action st0) = true)
  ∧ (∀ fuel f state action r st',
       invoke_reducer E (store_dispatch E fuel) f state action st
       = Done r st' →
       isDispatching st' = true
       ∧ registered st' = registered st
       ∧ closures st' = closures st).
Proof.
  intros Hd.
  assert (subscribe (VFunction l) st = Done (Err ReentrantSubscribe) st)
    as Hsub by (unfold subscribe; by rewrite Hd).
  assert (∀ h c, closures st !! h = Some (c, true) →
            unsubscribe h st = Done (Err ReentrantUnsubscribe) st) as Hunsub
    by (intros h c Hh; unfold unsubscribe; by rewrite Hh, Hd).
  split; [done|]. split; [done|]. split; [|split; [|split]].
  - intros fuel k h. cbn [run exec_call]. by rewrite Hsub.
  - intros fuel hd c k h Hh. cbn [run exec_call]. by rewrite (Hunsub hd c).
  - done.
  - intros fuel f state action r st' Hrun.
    pose proof (invoke_reducer_busy E _ _ _ _ _ _ _ Hd Hrun) as Hph.
    split; [|split].
    + by rewrite (phase_flag _ _ Hph).
    + unfold registered, array_at.
      by rewrite (phase_arrays _ _ Hph), (phase_next _ _ Hph).
    + exact (phase_closures _ _ Hph).
Qed.

Lemma createStore_S (fuel : nat)
    (reducer preloadedState enhancer arg3 : value) :
  createStore E (S fuel) reducer preloadedState enhancer arg3 =
    if (is_function preloadedState && is_function enhancer)
       || (is_function enhancer && is_function arg3)
    then CThrow AmbiguousEnhancer
    else
      let '(enhancer, preloadedState) :=
        if is_function preloadedState && is_undefined enhancer
        then (preloadedState, VUndefined)
        else (enhancer, preloadedState) in
      if negb (is_undefined enhancer) then
        match enhancer with
        | VFunction f =>
            enhancer_body E f (createStore E fuel) reducer preloadedState
        | _ => CThrow InvalidArgument
        end
      else
        match reducer with
        | VFunction r =>
            let st := initial_store r preloadedState in
            let action := action_of_type (created st) (ActionTypes_INIT E) in
            match store_dispatch E fuel action
                    (set_created (S (created st)) st) with
            | OutOfFuel => COutOfFuel
            | Done (Err e) _ => CThrow e
            | Done (Ok _) st' => CReturn (store_object E fuel) st'
            end
        | _ => CThrow InvalidArgument
        end.
Proof. reflexivity. Qed.

(** C9.  For a reducer [r] that returns [v] when it is given undefined
    and the synthetic initialize action: [createStore(r)], with no
    preloaded state and no enhancer, returns a store; on the way it has
    invoked the reducer once, with undefined and that action, and
    [getState()] on the store returns [v].  No listener is registered
    yet. *)
Theorem createStore_initializes (fuel : nat) (r : fnref) (v : value)
    (st1 : store) :
  let init := action_of_type 0 (ActionTypes_INIT E) in
  let st0 := set_created 1 (initial_store r VUndefined) in
  reducer_returns E st0 init v st1 →
  ∃ st,
    createStore E (S (S (S fuel))) (VFunction r) VUndefined VUndefined
      VUndefined
    = CReturn (store_object E (S (S fuel))) st
    ∧ getState st = Done (Ok v) st
    ∧ getState_method (store_object E (S (S fuel))) (mkWorld st [])
      = WDone (Ok v) (mkWorld st [])
    ∧ reducerCalls st = [(r, VUndefined, init)]
    ∧ registered st = []
    ∧ wf st.
Proof.
  intros init st0 Hred. unfold reducer_returns in Hred.
  pose proof (invoke_reducer_busy E 1 _ _ _ (entering init st0) _ _
                eq_refl Hred) as Hph.
  set (st := set_currentListeners (Some (nextListeners st1))
               (set_isDispatching false (set_currentState v st1))).
  assert (array_at st (nextListeners st1) = []) as Harr.
  { unfold array_at. cbn.
    by rewrite (phase_arrays _ _ Hph), (phase_next _ _ Hph). }
  assert (store_dispatch E (S (S fuel)) init st0 = Done (Ok init) st) as Hd.
  { unfold store_dispatch. rewrite dispatch_S.
    change (negb (isPlainObject init)) with false.
    change (is_undefined (get_prop init "type")) with false.
    change (isDispatching st0) with false. cbn iota.
    rewrite (invoke_reducer_busy_fuel E fuel 0) by done.
    rewrite Hred. cbn zeta.
    change (nextListeners (set_isDispatching false (set_currentState v st1)))
      with (nextListeners st1).
    fold st. rewrite notify_S, Harr. done. }
  exists st. split; [|split; [|split; [|split; [|split]]]].
  - rewrite createStore_S. cbn [is_function is_undefined typeof andb orb negb].
    cbn zeta. change (created (initial_store r VUndefined)) with 0.
    fold init st0. by rewrite Hd.
  - done.
  - done.
  - cbn. by rewrite (phase_calls _ _ Hph).
  - unfold registered. exact Harr.
  - apply dispatch_sound in Hd as [Hg _]. apply Hg.
    assert (grows (initial_store r VUndefined) st0) as Hg0
      by (by apply grows_same).
    apply Hg0, initial_store_wf.
Qed.

(** C6.  An enhancer in the third place (the second not being callable,
    and no callable in a fourth place), and a callable in the second
    place with nothing in the third, are both the enhancer: createStore
    returns what [enhancer(createStore)(reducer, preloadedState)] does,
    [preloadedState] being undefined in the second shape, whatever
    [reducer] is (the createStore the enhancer is handed is this same
    function, with the fuel that is left).  The outcome being the
    enhancer's own, the outer call has neither checked the reducer nor
    dispatched. *)
Theorem createStore_delegates_to_enhancer (fuel : nat) (reducer : value)
    (f : fnref) :
  (∀ preloadedState arg3,
     is_function preloadedState = false →
     is_function arg3 = false →
     createStore E (S fuel) reducer preloadedState (VFunction f) arg3
     = enhancer_body E f (createStore E fuel) reducer preloadedState)
  ∧ (∀ arg3,
       createStore E (S fuel) reducer (VFunction f) VUndefined arg3
       = enhancer_body E f (createStore E fuel) reducer VUndefined).
Proof.
  split.
  - intros preloadedState arg3 Hp H3. rewrite createStore_S, Hp, H3. done.
  - intros arg3. rewrite createStore_S. done.
Qed.

End Claims.

(** ** Middleware *)

Lemma compose_fold {A : Type} (funcs : list (A → A)) (x : A) :
  compose funcs x = foldr (λ f acc, f acc) x funcs.
Proof.
  destruct funcs as [|f rest]; [done|].
  assert (∀ g : A → A,
            fold_left (λ (a b : A → A) (args : A), a (b args)) rest g x
            = g (foldr (λ f acc, f acc) x rest)) as Hfold.
  { revert x. induction rest as [|h rest IH]; intros x g; [done|].
    cbn. by rewrite IH. }
  destruct rest as [|g rest]; [done|]. apply Hfold.
Qed.

(** C5.  The store that [applyMiddleware(m1, m2)] builds is the store of
    the creator it is given with [dispatch] replaced, and that dispatch is
    [m1]'s wrapper around [m2]'s wrapper around the store's own dispatch:
    the right-to-left composition of the chain, as for a chain of any
    length.  When both wrappers call their [next] exactly once, every call
    of the composed dispatch enters [m1]'s wrapper, then [m2]'s, then the
    base dispatch, in that order and once each: the base dispatch is called
    with these three entries just recorded, and the composed dispatch
    returns when that call does, with no further entry.  A wrapper that
    does not call [next] keeps what follows from being entered. *)
Theorem middleware_ordering (fuel : nat) (m1 m2 : Middleware)
    (store : StoreObject) :
  let api :=
    {| api_getState := getState_method store;
       api_dispatch := λ action,
         composed_dispatch fuel [m1; m2] store action |} in
  let composed := composed_dispatch (S fuel) [m1; m2] store in
  (∀ (createStore : StoreCreator) reducer preloadedState st,
     createStore reducer preloadedState VUndefined VUndefined
     = CReturn store st →
     ∃ enhanced,
       applyMiddleware (S fuel) [m1; m2] createStore reducer preloadedState
       = CReturn enhanced st
       ∧ dispatch_method enhanced = composed
       ∧ getState_method enhanced = getState_method store
       ∧ subscribe_method enhanced = subscribe_method store
       ∧ replaceReducer_method enhanced = replaceReducer_method store)
  ∧ composed
    = traced 0 (m1 api)
        (traced 1 (m2 api) (traced_base (dispatch_method store)))
  ∧ (∀ (chain : list (Dispatch → Dispatch)) (base : Dispatch),
       compose chain base = foldr (λ wrapper next, wrapper next) base chain)
  ∧ (forwards (m1 api) → forwards (m2 api) → silent (dispatch_method store) →
     ∀ action w, ∃ a1 a2 w2,
       trace w2
       = trace w ++ [EnterInterceptor 0 action; EnterInterceptor 1 a1;
                     EnterBase a2]
       ∧ match dispatch_method store a2 w2 with
         | WOutOfFuel => composed action w = WOutOfFuel
         | WDone _ w3 =>
             trace w3 = trace w2
             ∧ ∃ r' c', composed action w = WDone r' (mkWorld c' (trace w2))
         end)
  ∧ ((∀ next action w, m1 api next action w = WDone (Ok VNull) w) →
     ∀ action w,
       composed action w
       = WDone (Ok VNull) (record (EnterInterceptor 0 action) w)).
Proof.
  intros api composed.
  assert (composed
          = traced 0 (m1 api)
              (traced 1 (m2 api) (traced_base (dispatch_method store))))
    as Heq by reflexivity.
  split.
  { intros createStore reducer preloadedState st Hmade.
    unfold applyMiddleware. rewrite Hmade. by eexists. }
  split; [done|]. split; [intros; apply compose_fold|]. split.
  - intros (before1 & after1 & H1) (before2 & after2 & H2) Hsilent action w.
    set (p1 := before1 action (cells w)).
    set (p2 := before2 p1.1 p1.2).
    set (w2 := mkWorld p2.2
                 (trace w ++ [EnterInterceptor 0 action;
                              EnterInterceptor 1 p1.1; EnterBase p2.1])).
    assert (composed action w
            = match dispatch_method store p2.1 w2 with
              | WOutOfFuel => WOutOfFuel
              | WDone r w' =>
                  let q2 := after2 r (cells w') in
                  let q1 := after1 q2.1 q2.2 in
                  WDone q1.1 (mkWorld q1.2 (trace w'))
              end) as Hc.
    { rewrite Heq. unfold traced, traced_base, record.
      rewrite H1. cbn [cells trace]. rewrite H2. cbn [cells trace].
      fold p1. fold p2. rewrite <- !app_assoc. cbn [app]. fold w2.
      by destruct (dispatch_method store p2.1 w2). }
    exists p1.1, p2.1, w2. split; [done|]. rewrite Hc.
    destruct (dispatch_method store p2.1 w2) as [|r3 w3] eqn:Hbase; [done|].
    pose proof (Hsilent _ _ _ _ Hbase) as Htr. split; [done|].
    cbn zeta. rewrite Htr. by eexists _, _.
  - intros Hblock action w. rewrite Heq. unfold traced at 1.
    by rewrite Hblock.
Qed.

(** * The claims on the scenarios *)

Import Scenario.

Lemma fresh_wf : wf fresh.
Proof.
  split; [vm_compute; lia | intros c; vm_compute; intros [= <-]; lia |].
  vm_compute. reflexivity.
Qed.

Lemma two_listeners_wf : wf two_listeners.
Proof.
  split; [vm_compute; lia | intros c; vm_compute; intros [= <-]; lia |].
  vm_compute. reflexivity.
Qed.

Lemma two_inert_wf : wf two_inert.
Proof.
  split; [vm_compute; lia | intros c; vm_compute; intros [= <-]; lia |].
  vm_compute. reflexivity.
Qed.

Lemma one_dispatcher_wf : wf one_dispatcher.
Proof.
  split; [vm_compute; lia | intros c; vm_compute; intros [= <-]; lia |].
  vm_compute. reflexivity.
Qed.

Lemma with_reducer_wf (id : nat) : wf (with_reducer id).
Proof.
  assert (grows two_inert (with_reducer id)) as Hg by (by apply grows_same).
  apply Hg, two_inert_wf.
Qed.

Lemma two_inert_quiet (l : fnref) :
  l ∈ registered two_inert → quiet_listener env l.
Proof.
  change (registered two_inert) with [FUser 10; FUser 13].
  intros [->|[->|[]%elem_of_nil]%elem_of_cons]%elem_of_cons; exact I.
Qed.




(** The listener 14 cancels its own subscription and dispatches [inc]: when
    the outer [dispatch(inc)] returns, the state is 2, not the 1 the
    reducer returned for it. *)
Lemma dispatch_forwards_counterexample :
  ¬ (∀ (st : store) (action v : value) (st1 : store),
       wf st →
       isDispatching st = false →
       valid_action action = true →
       reducer_returns env st action v st1 →
       ∀ fuel r st' invoked,
         dispatch env fuel action st = (Done r st', invoked) →
         getState st' = Done (Ok v) st').
Proof.
  intros H.
  assert (dispatch env 5 inc one_dispatcher
          = (Done (Ok inc)
               (state_after (store_dispatch env 5 inc one_dispatcher)),
             [FUser 14])) as Hd by (vm_compute; reflexivity).
  assert (reducer_returns env one_dispatcher inc (VNum 1)
            (entering inc one_dispatcher)) as Hred by (vm_compute; reflexivity).
  specialize (H one_dispatcher inc (VNum 1) (entering inc one_dispatcher)
                one_dispatcher_wf eq_refl eq_refl Hred _ _ _ _ Hd).
  vm_compute in H. discriminate H.
Qed.

Lemma dispatch_forwards_reducer_result_witness :
  wf two_inert
  ∧ isDispatching two_inert = false
  ∧ valid_action inc = true
  ∧ reducer_returns env two_inert inc (VNum 1) (entering inc two_inert)
  ∧ (∀ l, l ∈ registered two_inert → quiet_listener env l)
  ∧ (∃ fuel r st' invoked,
       dispatch env fuel inc two_inert = (Done r st', invoked))
  ∧ (∀ fuel r st' invoked,
       dispatch env fuel inc two_inert = (Done r st', invoked) →
       getState st' = Done (Ok (VNum 1)) st'
       ∧ (VNum 1 = currentState two_inert →
          currentState st' = currentState two_inert)
       ∧ (∀ x, r = Ok x → x = inc)).
Proof.
  split; [exact two_inert_wf|]. split; [reflexivity|].
  split; [reflexivity|]. split; [reflexivity|].
  split; [exact two_inert_quiet|].
  exact (dispatch_forwards_reducer_result env two_inert inc (VNum 1)
           (entering inc two_inert) two_inert_wf eq_refl eq_refl eq_refl
           two_inert_quiet).
Defined.

(** The reducer 1 throws: the state stays 0, and after the counter is put
    back a dispatch of [inc] makes it 1. *)
Lemma reducer_exception_propagates_witness :
  isDispatching (with_reducer 1) = false
  ∧ valid_action inc = true
  ∧ reducer_throws env (with_reducer 1) inc (UserError (VStr "boom"))
      (entering inc (with_reducer 1))
  ∧ dispatch env 2 inc (with_reducer 1)
    = (Done (Err (UserError (VStr "boom")))
         (set_isDispatching false (entering inc (with_reducer 1))), [])
  ∧ currentState (set_isDispatching false (entering inc (with_reducer 1)))
    = VNum 0
  ∧ isDispatching (set_isDispatching false (entering inc (with_reducer 1)))
    = false.
Proof.
  destruct (reducer_exception_propagates env 0 (with_reducer 1) inc
              (UserError (VStr "boom")) (entering inc (with_reducer 1))
              eq_refl eq_refl eq_refl)
    as (Hd & Hs & _ & Hi & _).
  split; [reflexivity|]. split; [reflexivity|]. split; [reflexivity|].
  split; [exact Hd|]. split; [exact Hs|]. exact Hi.
Defined.

(** A reducer that dispatches the number 42 has that call turned away for
    its shape, not for reentrancy; and a reducer that catches what its own
    dispatch throws lets the outer dispatch return. *)
Lemma reentrant_dispatch_counterexample :
  isDispatching busy = true
  ∧ store_dispatch env 5 (VNum 42) busy = Done (Err InvalidActionShape) busy
  ∧ InvalidActionShape ≠ ReentrantDispatch
  ∧ (∃ st', store_dispatch env 5 inc (with_reducer 3)
            = Done (Err InvalidActionShape) st')
  ∧ (∃ st', store_dispatch env 5 inc (with_reducer 4) = Done (Ok inc) st').
Proof.
  split; [reflexivity|]. split; [reflexivity|]. split; [discriminate|].
  split; eexists; vm_compute; reflexivity.
Qed.

Lemma reentrant_dispatch_rejected_witness :
  isDispatching busy = true
  ∧ valid_action inc = true
  ∧ dispatch env 1 inc busy = (Done (Err ReentrantDispatch) busy, [])
  ∧ dispatch env 1 (VNum 42) busy = (Done (Err InvalidActionShape) busy, [])
  ∧ reducer_body env 2 (currentState (with_reducer 2)) inc
    = call_then (CDispatch inc) (λ _, Ret (currentState (with_reducer 2)))
  ∧ (∃ st', dispatch env 2 inc (with_reducer 2)
            = (Done (Err ReentrantDispatch) st', [])
            ∧ currentState st' = currentState (with_reducer 2)
            ∧ isDispatching st' = false
            ∧ registered st' = registered (with_reducer 2)
            ∧ reducerCalls st'
              = reducerCalls (with_reducer 2)
                ++ [(FUser 2, currentState (with_reducer 2), inc)]).
Proof.
  destruct (reentrant_dispatch_rejected env 0) as (Hinner & _ & Houter).
  destruct (Hinner busy inc eq_refl) as [Hd Hr].
  destruct (Hinner busy (VNum 42) eq_refl) as [Hd' _].
  split; [reflexivity|]. split; [reflexivity|].
  split; [rewrite Hd; by rewrite (Hr eq_refl)|]. split; [exact Hd'|].
  split; [reflexivity|].
  exact (Houter (with_reducer 2) inc inc 2 _ eq_refl eq_refl eq_refl eq_refl
           eq_refl).
Defined.

(** [replaceReducer(counter)] on the store with the dispatching listener:
    the counter returns the prior state 0 for the replace action, yet the
    state afterwards is 1. *)
Lemma replaceReducer_continuity_counterexample :
  ¬ (∀ (st : store) (f : fnref) (v : value) (st1 : store),
       wf st →
       isDispatching st = false →
       reducer_returns env
         (set_created (S (created st)) (set_currentReducer f st))
         (action_of_type (created st) (ActionTypes_REPLACE env)) v st1 →
       currentReducer st1 = f →
       ∀ fuel r st',
         replaceReducer env (store_dispatch env fuel) (VFunction f) st
         = Done r st' →
         getState st' = Done (Ok v) st').
Proof.
  intros H.
  assert (replaceReducer env (store_dispatch env 5) (VFunction (FUser 0))
            one_dispatcher
          = Done (Ok VStore)
              (state_after
                 (replaceReducer env (store_dispatch env 5)
                    (VFunction (FUser 0)) one_dispatcher))) as Hr
    by (vm_compute; reflexivity).
  assert (reducer_returns env
            (set_created (S (created one_dispatcher))
               (set_currentReducer (FUser 0) one_dispatcher))
            (action_of_type (created one_dispatcher) (ActionTypes_REPLACE env))
            (VNum 0)
            (entering (action_of_type 1 (ActionTypes_REPLACE env))
               (set_created 2 (set_currentReducer (FUser 0) one_dispatcher))))
    as Hred by (vm_compute; reflexivity).
  specialize (H one_dispatcher (FUser 0) (VNum 0) _
                one_dispatcher_wf eq_refl Hred eq_refl _ _ _ Hr).
  vm_compute in H. discriminate H.
Qed.

Lemma replaceReducer_continuity_witness :
  wf (with_reducer 5)
  ∧ isDispatching (with_reducer 5) = false
  ∧ reducer_returns env
      (set_created 2 (set_currentReducer (FUser 0) (with_reducer 5)))
      (action_of_type 1 (ActionTypes_REPLACE env)) (VNum 0)
      (entering (action_of_type 1 (ActionTypes_REPLACE env))
         (set_created 2 (set_currentReducer (FUser 0) (with_reducer 5))))
  ∧ (∃ fuel r st',
       replaceReducer env (store_dispatch env fuel) (VFunction (FUser 0))
         (with_reducer 5) = Done r st')
  ∧ (∀ fuel r st',
       replaceReducer env (store_dispatch env fuel) (VFunction (FUser 0))
         (with_reducer 5) = Done r st' →
       getState st' = Done (Ok (VNum 0)) st' ∧ currentReducer st' = FUser 0).
Proof.
  destruct (replaceReducer_continuity env (with_reducer 5) (FUser 0) (VNum 0)
              (entering (action_of_type 1 (ActionTypes_REPLACE env))
                 (set_created 2 (set_currentReducer (FUser 0)
                                   (with_reducer 5))))
              (with_reducer_wf 5) eq_refl eq_refl eq_refl two_inert_quiet)
    as [Hex Hall].
  split; [exact (with_reducer_wf 5)|]. split; [reflexivity|].
  split; [reflexivity|]. split; [exact Hex|].
  intros fuel r st' Hr. destruct (Hall fuel r st' Hr) as (Hg & Hc & _).
  split; [exact Hg | exact Hc].
Defined.

Lemma reentrant_subscription_rejected_witness :
  isDispatching busy = true
  ∧ subscribe (VFunction (FUser 10)) busy = Done (Err ReentrantSubscribe) busy
  ∧ closures (entering inc two_inert) !! 0 = Some (FUser 10, true)
  ∧ unsubscribe 0 (entering inc two_inert)
    = Done (Err ReentrantUnsubscribe) (entering inc two_inert).
Proof.
  destruct (reentrant_subscription_rejected env busy (FUser 10) eq_refl)
    as (Hs & _).
  destruct (reentrant_subscription_rejected env (entering inc two_inert)
              (FUser 10) eq_refl)
    as (_ & Hu & _).
  split; [reflexivity|]. split; [exact Hs|]. split; [reflexivity|].
  exact (Hu 0 (FUser 10) eq_refl).
Defined.

Lemma createStore_initializes_witness :
  reducer_returns env (set_created 1 (initial_store (FUser 0) VUndefined))
    (action_of_type 0 (ActionTypes_INIT env)) (VNum 0)
    (entering (action_of_type 0 (ActionTypes_INIT env))
       (set_created 1 (initial_store (FUser 0) VUndefined)))
  ∧ ∃ st,
      createStore env 3 (VFunction (FUser 0)) VUndefined VUndefined VUndefined
      = CReturn (store_object env 2) st
      ∧ getState st = Done (Ok (VNum 0)) st
      ∧ getState_method (store_object env 2) (mkWorld st [])
        = WDone (Ok (VNum 0)) (mkWorld st [])
      ∧ reducerCalls st
        = [(FUser 0, VUndefined, action_of_type 0 (ActionTypes_INIT env))]
      ∧ registered st = []
      ∧ wf st.
Proof.
  split; [reflexivity|].
  exact (createStore_initializes env 0 (FUser 0) (VNum 0)
           (entering (action_of_type 0 (ActionTypes_INIT env))
              (set_created 1 (initial_store (FUser 0) VUndefined)))
           eq_refl).
Defined.

(** The enhancer of the scenario calls the creator it is given; here the
    reducer is the number 3, and it is that inner call which rejects it. *)
Lemma createStore_delegates_to_enhancer_witness :
  is_function VNull = false
  ∧ is_function VUndefined = false
  ∧ createStore env 2 (VNum 3) VNull (VFunction (FUser 7)) VUndefined
    = enhancer_body env (FUser 7) (createStore env 1) (VNum 3) VNull
  ∧ createStore env 2 (VNum 3) (VFunction (FUser 7)) VUndefined VUndefined
    = enhancer_body env (FUser 7) (createStore env 1) (VNum 3) VUndefined.
Proof.
  destruct (createStore_delegates_to_enhancer env 1 (VNum 3) (FUser 7))
    as [H3 H2].
  split; [reflexivity|]. split; [reflexivity|].
  split; [exact (H3 VNull VUndefined eq_refl eq_refl) | exact (H2 VUndefined)].
Defined.

Lemma logger_forwards (api : MiddlewareAPI) : forwards (logger api).
Proof.
  exists (λ a st, (a, st)), (λ r st, (r, st)).
  intros next action [c t]. unfold logger. cbn.
  by destruct (next action _) as [|r [c' t']].
Qed.

Lemma store_object_silent (E : environment) (fuel : nat) :
  silent (dispatch_method (store_object E fuel)).
Proof.
  intros action w r w'. cbn. unfold lift.
  destruct (store_dispatch E fuel action (cells w)); [done|].
  by intros [= _ <-].
Qed.

(** Two interceptors that pass the action on, around the counter's store:
    one dispatch enters the first, the second and the base, once each. *)
Lemma middleware_ordering_witness :
  (∀ api, forwards (logger api))
  ∧ silent (dispatch_method (store_object env 5))
  ∧ composed_dispatch 1 [logger; logger] (store_object env 5) inc
      (mkWorld fresh [])
    = WDone (Ok inc)
        (mkWorld (state_after (store_dispatch env 5 inc fresh))
           [EnterInterceptor 0 inc; EnterInterceptor 1 inc; EnterBase inc])
  ∧ (∀ action w, ∃ a1 a2 w2,
       trace w2
       = trace w ++ [EnterInterceptor 0 action; EnterInterceptor 1 a1;
                     EnterBase a2]
       ∧ match dispatch_method (store_object env 5) a2 w2 with
         | WOutOfFuel =>
             composed_dispatch 1 [logger; logger] (store_object env 5)
               action w
             = WOutOfFuel
         | WDone _ w3 =>
             trace w3 = trace w2
             ∧ ∃ r' c',
                 composed_dispatch 1 [logger; logger] (store_object env 5)
                   action w
                 = WDone r' (mkWorld c' (trace w2))
         end).
Proof.
  destruct (middleware_ordering 0 logger logger (store_object env 5))
    as (_ & _ & _ & Hfw & _).
  split; [exact logger_forwards|]. split; [apply store_object_silent|].
  split; [vm_compute; reflexivity|].
  exact (Hfw (logger_forwards _) (logger_forwards _)
           (store_object_silent env 5)).
Defined.

(** With an interceptor that answers by itself in second place, the first
    is entered, then the second, and the store's dispatch never is: the
    state is still 0. *)
Example blocker_short_circuits :
  composed_dispatch 1 [logger; blocker] (store_object env 5) inc
    (mkWorld fresh [])
  = WDone (Ok VNull)
      (mkWorld fresh [EnterInterceptor 0 inc; EnterInterceptor 1 inc]).
Proof. vm_compute. reflexivity. Qed.

(** * Beyond the claims *)

(** ** A rule for invariants of the engine

    A relation between the store before and after that is kept by the
    assignments [dispatch] and [replaceReducer] make themselves, and by
    [subscribe] and [unsubscribe], is kept by every dispatch, whatever the
    reducers and listeners do. *)

Section Invariant.

Variable E : environment.
Variable R : store → store → Prop.

Hypothesis R_refl : ∀ st, R st st.
Hypothesis R_trans : ∀ st1 st2 st3, R st1 st2 → R st2 st3 → R st1 st3.
Hypothesis R_subscribe :
  ∀ l st r st', subscribe l st = Done r st' → R st st'.
Hypothesis R_unsubscribe :
  ∀ h st r st', unsubscribe h st = Done r st' → R st st'.
Hypothesis R_entering : ∀ a st, R st (entering a st).
Hypothesis R_finally : ∀ st, R st (set_isDispatching false st).
Hypothesis R_assign :
  ∀ v st,
    R st (set_currentListeners (Some (nextListeners st))
            (set_isDispatching false (set_currentState v st))).
Hypothesis R_swap :
  ∀ f st, R st (set_created (S (created st)) (set_currentReducer f st)).

Lemma exec_call_keeps (d : value → store → outcome) (c : call) (st : store)
    (r : result) (st' : store) :
  (∀ a s r s', d a s = Done r s' → R s s') →
  exec_call E d c st = Done r st' → R st st'.
Proof using R_refl R_trans R_subscribe R_unsubscribe R_swap.
  intros Hd. destruct c; cbn [exec_call].
  - apply Hd.
  - intros ->%getState_sound. apply R_refl.
  - apply R_subscribe.
  - apply R_unsubscribe.
  - unfold replaceReducer. destruct nextReducer;
      try (intros [= _ <-]; apply R_refl).
    destruct (d _ _) as [|r2 st2] eqn:Hdisp; [done|].
    apply Hd in Hdisp.
    assert (R st st2) as HR by (eapply R_trans; [apply R_swap | exact Hdisp]).
    destruct r2; by intros [= _ <-].
Qed.

Lemma run_keeps (d : value → store → outcome) (p : prog) :
  (∀ a s r s', d a s = Done r s' → R s s') →
  ∀ st r st', run E d p st = Done r st' → R st st'.
Proof using R_refl R_trans R_subscribe R_unsubscribe R_swap.
  intros Hd. induction p as [v|e|c k IHk h IHh]; intros st r st'; cbn [run].
  - intros [= _ <-]. apply R_refl.
  - intros [= _ <-]. apply R_refl.
  - destruct (exec_call E d c st) as [|r1 st1] eqn:Hc; [done|].
    pose proof (exec_call_keeps _ _ _ _ _ Hd Hc) as H1.
    destruct r1; intros Hrun; (eapply R_trans; [exact H1|]); eauto.
Qed.

Lemma engine_keeps (fuel : nat) :
  (∀ a st r st', store_dispatch E fuel a st = Done r st' → R st st')
  ∧ (∀ d i st r st' invoked,
       notify E fuel d i st = (Done r st', invoked) → R st st').
Proof using All.
  induction fuel as [|fuel [IHd IHn]]; [split; [intros ?|]; done|].
  assert (∀ f s a st r st',
            invoke_reducer E (store_dispatch E fuel) f s a st = Done r st' →
            R st st') as Hred.
  { intros f s a st r st'. destruct f; cbn [invoke_reducer].
    - by apply run_keeps.
    - apply R_unsubscribe. }
  assert (∀ f st r st',
            invoke_listener E (store_dispatch E fuel) f st = Done r st' →
            R st st') as Hlis.
  { intros f st r st'. destruct f; cbn [invoke_listener].
    - by apply run_keeps.
    - apply R_unsubscribe. }
  split.
  - intros action st r st'. unfold store_dispatch. rewrite dispatch_S.
    destruct (negb (isPlainObject action)); [intros [= _ <-]; apply R_refl|].
    destruct (is_undefined (get_prop action "type"));
      [intros [= _ <-]; apply R_refl|].
    destruct (isDispatching st); [intros [= _ <-]; apply R_refl|].
    destruct (invoke_reducer _ _ _ _ _ _) as [|r1 st1] eqn:H1; [done|].
    apply Hred in H1.
    assert (R st st1) as H01 by (eapply R_trans; [apply R_entering|exact H1]).
    destruct r1 as [v|e].
    + cbn zeta.
      destruct (notify _ _ _ _ _) as [[|r4 st4] invoked] eqn:Hn; [done|].
      apply IHn in Hn.
      assert (R st st4) as H04.
      { eapply R_trans; [exact H01|]. eapply R_trans; [|exact Hn].
        apply (R_assign v st1). }
      destruct r4; by intros [= _ <-].
    + intros [= _ <-]. eapply R_trans; [exact H01|]. apply R_finally.
  - intros d i st r st' invoked. rewrite notify_S.
    destruct (array_at st d !! i) as [l|]; [|intros [= _ <- _]; apply R_refl].
    destruct (invoke_listener _ _ _ _) as [|r1 st1] eqn:Hl; [done|].
    apply Hlis in Hl.
    destruct r1 as [v|e]; [|by intros [= _ <- _]].
    destruct (notify _ _ _ _ _) as [o inv] eqn:Hn.
    intros [= -> _]. apply IHn in Hn. by eapply R_trans.
Qed.

Lemma dispatch_keeps (fuel : nat) (a : value) (st : store) (r : result)
    (st' : store) (invoked : list fnref) :
  dispatch E fuel a st = (Done r st', invoked) → R st st'.
Proof using All.
  intros H. apply (proj1 (engine_keeps fuel) a st r st').
  unfold store_dispatch. by rewrite H.
Qed.

End Invariant.

(** ** Subscriptions over time *)

Lemma subscribe_closures (listener : value) (st : store) (r : result)
    (st' : store) :
  subscribe listener st = Done r st' →
  closures st' = closures st
  ∨ ∃ l, listener = VFunction l ∧ closures st' = closures st ++ [(l, true)].
Proof.
  destruct (isDispatching st) eqn:Hd.
  - unfold subscribe. rewrite Hd. destruct listener; intros [= _ <-]; auto.
  - destruct listener; try (intros [= _ <-]; by auto).
    rewrite subscribe_idle by done. intros [= _ <-]. right. exists f.
    split; [done|].
    by destruct (mutate_next_fields (λ a, a ++ [f])
                   (set_closures (closures st ++ [(f, true)]) st))
      as (_ & _ & _ & _ & -> & _).
Qed.

Lemma unsubscribe_closures (h : nat) (st : store) (r : result) (st' : store) :
  unsubscribe h st = Done r st' →
  closures st' = closures st
  ∨ ∃ l, closures st !! h = Some (l, true)
         ∧ closures st' = <[h := (l, false)]> (closures st).
Proof.
  destruct (closures st !! h) as [[l [|]]|] eqn:Hh.
  - destruct (isDispatching st) eqn:Hd.
    + unfold unsubscribe. rewrite Hh, Hd. cbn. intros [= _ <-]. auto.
    + rewrite (unsubscribe_idle_raw h l) by done. intros [= _ <-].
      right. exists l. split; [done|].
      change (closures (set_currentListeners None ?x)) with (closures x).
      by destruct (mutate_next_fields (splice1 (indexOf l (registered st)))
                     (set_closures (<[h := (l, false)]> (closures st)) st))
        as (_ & _ & _ & _ & -> & _).
  - unfold unsubscribe. rewrite Hh. cbn. intros [= _ <-]. auto.
  - unfold unsubscribe. rewrite Hh. intros [= _ <-]. auto.
Qed.

(** A subscription keeps its place and its listener for ever, and once
    cancelled it stays cancelled. *)
Lemma subscriptions_kept (E : environment) (fuel : nat) (a : value)
    (st : store) (r : result) (st' : store) (invoked : list fnref) :
  dispatch E fuel a st = (Done r st', invoked) →
  ∀ h l b, closures st !! h = Some (l, b) →
    ∃ b', closures st' !! h = Some (l, b') ∧ (b = false → b' = false).
Proof.
  apply (dispatch_keeps E
           (λ s s', ∀ h l b, closures s !! h = Some (l, b) →
              ∃ b', closures s' !! h = Some (l, b') ∧ (b = false → b' = false))).
  - intros s h l b Hh. eauto.
  - intros s1 s2 s3 H12 H23 h l b Hh.
    destruct (H12 h l b Hh) as (b2 & Hh2 & Hb2).
    destruct (H23 h l b2 Hh2) as (b3 & Hh3 & Hb3). eauto.
  - intros l s r0 s' [->|(f & _ & ->)]%subscribe_closures h l0 b Hh; [eauto|].
    exists b. split; [|done]. by apply lookup_app_l_Some.
  - intros h0 s r0 s' [->|(f & Hf & ->)]%unsubscribe_closures h l b Hh;
      [eauto|].
    destruct (decide (h0 = h)) as [->|Hne].
    + rewrite Hf in Hh. injection Hh as <- <-. exists false.
      split; [|done]. apply list_lookup_insert_eq. by eapply lookup_lt_Some.
    + exists b. split; [|done]. by rewrite list_lookup_insert_ne.
  - intros ? s h l b Hh. eauto.
  - intros s h l b Hh. eauto.
  - intros ? s h l b Hh. eauto.
  - intros ? s h l b Hh. eauto.
Qed.

(** X1.  Unsubscribe idempotence.  The first call of an unsubscribe
    function on an idle store cancels the subscription; every later call of
    it returns undefined and leaves the store exactly as it is: at once,
    with [isDispatching] set (the no-op comes before the reentrancy guard),
    and after any later dispatch, whatever that dispatch's reducer and
    listeners did. *)
Theorem unsubscribe_idempotent (E : environment) (h : nat) (l : fnref)
    (st : store) :
  isDispatching st = false →
  closures st !! h = Some (l, true) →
  ∃ st1,
    unsubscribe h st = Done (Ok VUndefined) st1
    ∧ unsubscribe h st1 = Done (Ok VUndefined) st1
    ∧ unsubscribe h (set_isDispatching true st1)
      = Done (Ok VUndefined) (set_isDispatching true st1)
    ∧ (∀ fuel a r st2 invoked,
         dispatch E fuel a st1 = (Done r st2, invoked) →
         unsubscribe h st2 = Done (Ok VUndefined) st2).
Proof.
  intros Hidle Hh. eexists. split; [by apply unsubscribe_idle_raw|].
  set (st1 := set_currentListeners None _).
  assert (closures st1 !! h = Some (l, false)) as Hh1.
  { subst st1.
    change (closures (set_currentListeners None ?x)) with (closures x).
    destruct (mutate_next_fields (splice1 (indexOf l (registered st)))
                (set_closures (<[h := (l, false)]> (closures st)) st))
      as (_ & _ & _ & _ & -> & _).
    apply list_lookup_insert_eq. by eapply lookup_lt_Some. }
  split; [by eapply unsubscribe_again|].
  split; [by apply (unsubscribe_again h l)|].
  intros fuel a r st2 invoked Hd.
  destruct (subscriptions_kept E _ _ _ _ _ _ Hd h l false Hh1)
    as (b' & Hh2 & Hb').
  rewrite (Hb' eq_refl) in Hh2. by eapply unsubscribe_again.
Qed.

(** X2.  Who is notified.  On a store in the shape [createStore] gives it
    (which every operation keeps), a listener is among those the next
    dispatch notifies exactly when a subscription of it is still live, and
    as often as it has live subscriptions; this is so before a dispatch
    and after it, whatever its reducer and listeners did. *)
Theorem notified_iff_subscribed (E : environment) (fuel : nat) (a : value)
    (st : store) (r : result) (st' : store) (invoked : list fnref) :
  wf st →
  dispatch E fuel a st = (Done r st', invoked) →
  (∀ l, l ∈ registered st ↔ ∃ h, closures st !! h = Some (l, true))
  ∧ (∀ l, l ∈ registered st' ↔ ∃ h, closures st' !! h = Some (l, true))
  ∧ registered st' ≡ₚ live_listeners st'.
Proof.
  intros Hwf Hd.
  assert (∀ s, wf s →
            ∀ l, l ∈ registered s ↔ ∃ h, closures s !! h = Some (l, true))
    as Hiff.
  { intros s Hs l. rewrite (wf_registered _ Hs). unfold live_listeners.
    rewrite list_elem_of_fmap. split.
    - intros ([l' b] & -> & [Hb Hin]%list_elem_of_filter). cbn in Hb.
      subst b. by apply list_elem_of_lookup_1.
    - intros [h Hh]. exists (l, true). split; [done|].
      apply list_elem_of_filter. split; [done|].
      by eapply list_elem_of_lookup_2. }
  assert (wf st') as Hwf'.
  { assert (store_dispatch E fuel a st = Done r st') as Hs
      by (unfold store_dispatch; by rewrite Hd).
    apply dispatch_sound in Hs as [Hg _]. by apply Hg. }
  split; [by apply Hiff|]. split; [by apply Hiff|]. apply Hwf'.
Qed.

(** ** When the reducer or a listener throws *)

Section Failures.

Variable E : environment.

Lemma dispatch_reducer_throws (fuel : nat) (st : store) (action : value)
    (e : error) (st1 : store) :
  isDispatching st = false →
  valid_action action = true →
  reducer_throws E st action e st1 →
  dispatch E (S (S fuel)) action st
  = (Done (Err e) (set_isDispatching false st1), [])
  ∧ reducer_phase (entering action st) st1.
Proof.
  intros Hidle [Hp Ht]%valid_action_spec Hred. unfold reducer_throws in Hred.
  split.
  - rewrite dispatch_S, Hp, Ht, Hidle. cbn [negb].
    by rewrite (invoke_reducer_busy_fuel E fuel 0), Hred.
  - exact (invoke_reducer_busy E 1 _ _ _ (entering action st) _ _ eq_refl
             Hred).
Qed.

(** X3.  replaceReducer does not roll back.  The new reducer is installed
    before the replace action is dispatched, and stays installed when that
    dispatch fails: called while a reducer runs, [replaceReducer(f)] throws
    ReentrantDispatch and [f] is the current reducer all the same; called
    on an idle store with an [f] that throws [e] for the replace action,
    it throws [e], the state is untouched and no listener is notified, and
    the next dispatch calls what is then the current reducer ([f], unless
    [f] replaced it in turn) with the old state. *)
Theorem replaceReducer_no_rollback (fuel : nat) (st : store) (f : fnref) :
  let st0 := set_created (S (created st)) (set_currentReducer f st) in
  let replace := action_of_type (created st) (ActionTypes_REPLACE E) in
  (isDispatching st = true →
   replaceReducer E (store_dispatch E (S fuel)) (VFunction f) st
   = Done (Err ReentrantDispatch) st0
   ∧ currentReducer st0 = f
   ∧ currentState st0 = currentState st)
  ∧ (∀ e st1,
       isDispatching st = false →
       reducer_throws E st0 replace e st1 →
       let st' := set_isDispatching false st1 in
       replaceReducer E (store_dispatch E (S (S fuel))) (VFunction f) st
       = Done (Err e) st'
       ∧ (currentReducer st1 = f → currentReducer st' = f)
       ∧ currentState st' = currentState st
       ∧ registered st' = registered st
       ∧ isDispatching st' = false
       ∧ reducerCalls st' = reducerCalls st ++ [(f, currentState st, replace)]
       ∧ (∀ fuel' b r' st'' invoked,
            valid_action b = true →
            dispatch E fuel' b st' = (Done r' st'', invoked) →
            ∃ rest, reducerCalls st''
                    = reducerCalls st'
                      ++ (currentReducer st', currentState st, b) :: rest)).
Proof.
  intros st0 replace. split.
  - intros Hd. rewrite replaceReducer_function. unfold store_dispatch.
    fold st0 replace. by rewrite dispatch_rejected.
  - intros e st1 Hidle Hred st'.
    destruct (dispatch_reducer_throws fuel st0 replace e st1 Hidle eq_refl Hred)
      as [Hd Hph].
    split; [|split; [done|split; [|split; [|split; [done|split]]]]].
    + rewrite replaceReducer_function. unfold store_dispatch.
      fold st0 replace. by rewrite Hd.
    + exact (phase_state _ _ Hph).
    + unfold registered, array_at. cbn.
      by rewrite (phase_arrays _ _ Hph), (phase_next _ _ Hph).
    + cbn. by rewrite (phase_calls _ _ Hph).
    + intros fuel' b r' st'' invoked Hb Hd'.
      destruct (dispatch_logs E fuel' b st' r' st'' invoked eq_refl Hb Hd')
        as [rest Hrest].
      exists rest. rewrite Hrest. do 4 f_equal.
      exact (phase_state _ _ Hph).
Qed.

(** X4.  createStore with a preloaded state.  For a preloaded state that
    is not callable and a reducer [r] that returns [v] when it is given
    that state and the initialize action, [createStore(r, preloadedState)]
    returns a store whose state is [v]; the reducer has been invoked once,
    with the preloaded state; no listener is registered, and no dispatch is
    in progress.  A fourth argument changes nothing. *)
Theorem createStore_preloaded (fuel : nat) (r : fnref)
    (preloadedState arg3 v : value) (st1 : store) :
  let init := action_of_type 0 (ActionTypes_INIT E) in
  let st0 := set_created 1 (initial_store r preloadedState) in
  is_function preloadedState = false →
  reducer_returns E st0 init v st1 →
  ∃ st,
    createStore E (S (S (S fuel))) (VFunction r) preloadedState VUndefined arg3
    = CReturn (store_object E (S (S fuel))) st
    ∧ getState st = Done (Ok v) st
    ∧ reducerCalls st = [(r, preloadedState, init)]
    ∧ registered st = []
    ∧ isDispatching st = false
    ∧ wf st.
Proof.
  intros init st0 Hpre Hred. unfold reducer_returns in Hred.
  pose proof (invoke_reducer_busy E 1 _ _ _ (entering init st0) _ _
                eq_refl Hred) as Hph.
  set (st := set_currentListeners (Some (nextListeners st1))
               (set_isDispatching false (set_currentState v st1))).
  assert (array_at st (nextListeners st1) = []) as Harr.
  { unfold array_at. cbn.
    by rewrite (phase_arrays _ _ Hph), (phase_next _ _ Hph). }
  assert (store_dispatch E (S (S fuel)) init st0 = Done (Ok init) st) as Hd.
  { unfold store_dispatch. rewrite dispatch_S.
    change (negb (isPlainObject init)) with false.
    change (is_undefined (get_prop init "type")) with false.
    change (isDispatching st0) with false. cbn iota.
    rewrite (invoke_reducer_busy_fuel E fuel 0) by done.
    rewrite Hred. cbn zeta.
    change (nextListeners (set_isDispatching false (set_currentState v st1)))
      with (nextListeners st1).
    fold st. rewrite notify_S, Harr. done. }
  exists st. split; [|split; [done|split; [|split; [|split; [done|]]]]].
  - rewrite createStore_S, Hpre. cbn [is_function is_undefined typeof andb orb negb].
    cbn zeta. change (created (initial_store r preloadedState)) with 0.
    fold init st0. by rewrite Hd.
  - cbn. by rewrite (phase_calls _ _ Hph).
  - unfold registered. exact Harr.
  - apply dispatch_sound in Hd as [Hg _]. apply Hg.
    assert (grows (initial_store r preloadedState) st0) as Hg0
      by (by apply grows_same).
    apply Hg0, initial_store_wf.
Qed.


(** X6.  A listener that throws.  When the first listener of the snapshot
    throws [e], [dispatch] throws [e]; the state is already the reducer's
    result and stays so, the listeners after it are not invoked, nothing is
    unregistered, and [isDispatching] is clear, so the store goes on
    working with the new state. *)
Theorem listener_exception_keeps_state (fuel : nat) (st : store)
    (action v : value) (st1 : store) (id : nat) (rest : list fnref)
    (e : error) :
  isDispatching st = false →
  valid_action action = true →
  reducer_returns E st action v st1 →
  registered st = FUser id :: rest →
  listener_body E id = Throw e →
  ∃ st',
    dispatch E (S (S fuel)) action st = (Done (Err e) st', [FUser id])
    ∧ currentState st' = v
    ∧ getState st' = Done (Ok v) st'
    ∧ registered st' = FUser id :: rest
    ∧ closures st' = closures st
    ∧ reducerCalls st'
      = reducerCalls st ++ [(currentReducer st, currentState st, action)].
Proof.
  intros Hidle [Hp Ht]%valid_action_spec Hred Hreg Hbody.
  unfold reducer_returns in Hred.
  pose proof (invoke_reducer_busy E 1 _ _ _ (entering action st) _ _
                eq_refl Hred) as Hph.
  set (st' := set_currentListeners (Some (nextListeners st1))
                (set_isDispatching false (set_currentState v st1))).
  assert (array_at st' (nextListeners st1) = FUser id :: rest) as Harr.
  { rewrite <- Hreg. unfold registered, array_at. cbn.
    by rewrite (phase_arrays _ _ Hph), (phase_next _ _ Hph). }
  exists st'. split; [|split; [done|split; [done|split; [|split]]]].
  - rewrite dispatch_S, Hp, Ht, Hidle. cbn [negb].
    rewrite (invoke_reducer_busy_fuel E fuel 0) by done.
    rewrite Hred. cbn zeta.
    change (nextListeners (set_isDispatching false (set_currentState v st1)))
      with (nextListeners st1).
    fold st'. rewrite notify_S, Harr. cbn [lookup list_lookup invoke_listener].
    rewrite Hbody. done.
  - rewrite <- Harr. unfold registered, array_at. cbn.
    by rewrite (phase_next _ _ Hph).
  - exact (phase_closures _ _ Hph).
  - cbn. by rewrite (phase_calls _ _ Hph).
Qed.


(** X8.  getState inside and outside the reducer.  While the reducer runs,
    [getState()] throws IllegalReentrantRead at the caller and changes
    nothing; a reducer that starts by reading the state and does not catch
    that makes [dispatch] throw it, the state staying as it was.  While
    the listeners run it returns the current state: a listener sees the
    state the reducer has just returned. *)
Theorem getState_reentrancy (fuel : nat) (st : store) :
  (∀ d k h,
     run E d (Call CGetState k h) st
     = if isDispatching st then run E d (h IllegalReentrantRead) st
       else run E d (k (currentState st)) st)
  ∧ (∀ action id k,
       isDispatching st = false →
       valid_action action = true →
       currentReducer st = FUser id →
       reducer_body E id (currentState st) action = call_then CGetState k →
       ∃ st',
         dispatch E (S fuel) action st
         = (Done (Err IllegalReentrantRead) st', [])
         ∧ currentState st' = currentState st
         ∧ isDispatching st' = false
         ∧ registered st' = registered st)
  ∧ (∀ action v st1 id rest k,
       isDispatching st = false →
       valid_action action = true →
       reducer_returns E st action v st1 →
       registered st = FUser id :: rest →
       listener_body E id = call_then CGetState k →
       ∃ st3,
         currentState st3 = v
         ∧ isDispatching st3 = false
         ∧ invoke_listener E (store_dispatch E fuel) (FUser id) st3
           = run E (store_dispatch E fuel) (k v) st3
         ∧ dispatch E (S (S fuel)) action st
           = match notify E (S fuel) (nextListeners st3) 0 st3 with
             | (Done (Ok _) st4, invoked) => (Done (Ok action) st4, invoked)
             | other => other
             end).
Proof.
  split; [|split].
  - intros d k h. cbn [run exec_call]. unfold getState.
    by destruct (isDispatching st).
  - intros action id k Hidle [Hp Ht]%valid_action_spec Hcur Hbody.
    eexists. split.
    + rewrite dispatch_S, Hp, Ht, Hidle. cbn [negb].
      rewrite Hcur. cbn [invoke_reducer]. rewrite Hbody.
      unfold call_then. cbn [run exec_call]. done.
    + done.
  - intros action v st1 id rest k Hidle [Hp Ht]%valid_action_spec Hred Hreg
      Hbody.
    unfold reducer_returns in Hred.
    exists (set_currentListeners (Some (nextListeners st1))
              (set_isDispatching false (set_currentState v st1))).
    split; [done|]. split; [done|]. split.
    + cbn [invoke_listener]. rewrite Hbody. unfold call_then.
      cbn [run exec_call]. done.
    + rewrite dispatch_S, Hp, Ht, Hidle. cbn [negb].
      rewrite (invoke_reducer_busy_fuel E fuel 0) by done.
      by rewrite Hred.
Qed.

End Failures.

(** ** compose and the middleware chain, at any length *)

(** X9.  compose and concatenation.  Composing two lists of functions one
    after the other is composing their concatenation: the functions of the
    second list are applied first, the last of them first of all.  With an
    empty list on either side nothing is added. *)
Theorem compose_app {A : Type} (fs gs : list (A → A)) (x : A) :
  compose (fs ++ gs) x = compose fs (compose gs x)
  ∧ compose (fs ++ []) x = compose fs x
  ∧ (∀ g, compose (fs ++ [g]) x = compose fs (g x))
  ∧ (∀ f, compose (f :: gs) x = f (compose gs x)).
Proof.
  split; [|split; [|split]].
  - by rewrite !compose_fold, foldr_app.
  - by rewrite app_nil_r.
  - intros g. by rewrite !compose_fold, foldr_app.
  - intros f. by rewrite !compose_fold.
Qed.



(** ** Subscribing and cancelling again *)

Lemma remove_first_last (x : fnref) (xs : list fnref) :
  x ∉ xs → remove_first x (xs ++ [x]) = xs.
Proof.
  induction xs as [|y xs IH]; intros Hn; cbn.
  - by rewrite decide_True.
  - destruct (decide (y = x)) as [->|Hne].
    + exfalso. apply Hn. by left.
    + f_equal. apply IH. intros Hin. apply Hn. by right.
Qed.

(** X11.  Subscribing a listener and calling the unsubscribe function at
    once.  Both calls succeed on an idle store and the state is untouched.
    What is taken out of the staging array is the first entry equal to the
    listener: when the listener was not subscribed before, the listeners
    are those of before, in their order; when it was, and came first, it
    now comes last, its older subscription being the one that is left.  In
    every case the same listeners remain, as often as before. *)
Theorem subscribe_unsubscribe_round_trip (l : fnref) (st : store) :
  wf st →
  isDispatching st = false →
  ∃ h st1 st2,
    subscribe (VFunction l) st = Done (Ok (VFunction (FUnsub h))) st1
    ∧ unsubscribe h st1 = Done (Ok VUndefined) st2
    ∧ registered st2 = remove_first l (registered st ++ [l])
    ∧ registered st2 ≡ₚ registered st
    ∧ (l ∉ registered st → registered st2 = registered st)
    ∧ (∀ rest, registered st = l :: rest → registered st2 = rest ++ [l])
    ∧ currentState st2 = currentState st
    ∧ isDispatching st2 = false
    ∧ wf st2.
Proof.
  intros Hwf Hidle.
  destruct (subscribe_registers l st Hwf Hidle)
    as (st1 & Hsub & Hreg1 & Hcl1 & Hwf1).
  destruct (subscribe_sound _ _ _ _ Hsub) as (_ & Hd1 & Hs1 & _).
  assert (closures st1 !! length (closures st) = Some (l, true)) as Hh.
  { rewrite Hcl1. by apply list_lookup_middle. }
  destruct (unsubscribe_unregisters _ l st1 Hwf1 ltac:(congruence) Hh)
    as (st2 & Hun & Hreg2 & _ & Hwf2).
  destruct (unsubscribe_sound _ _ _ _ Hun) as (_ & Hd2 & Hs2 & _).
  exists (length (closures st)), st1, st2.
  rewrite Hreg2, Hreg1.
  split; [done|]. split; [done|]. split; [done|].
  split; [|split; [|split; [|split; [congruence|split; [congruence|done]]]]].
  - apply (Permutation_cons_inv (a := l)).
    rewrite <- remove_first_perm by (apply elem_of_app; right; by left).
    by rewrite Permutation_app_comm.
  - apply remove_first_last.
  - intros rest ->. cbn. by rewrite decide_True.
Qed.

(** ** The observable *)

Section Observers.

Variable E : environment.
Variable next_body : nat → value → prog.

Lemma observeState_next (d : value → store → outcome) (observer : value)
    (n : nat) (st : store) :
  get_prop observer "next" = VFunction (FUser n) →
  run E d (observeState next_body observer) st
  = if isDispatching st then Done (Err IllegalReentrantRead) st
    else run E d (next_body n (currentState st)) st.
Proof.
  intros H. unfold observeState. rewrite H. cbn [truthy run exec_call].
  unfold getState. by destruct (isDispatching st).
Qed.

Lemma observeState_blind (d : value → store → outcome) (observer : value)
    (st : store) :
  truthy (get_prop observer "next") = false →
  run E d (observeState next_body observer) st = Done (Ok VUndefined) st.
Proof. intros H. unfold observeState. by rewrite H. Qed.

(** What the observable's subscribe does once [observeState()] returned. *)
Lemma observable_subscribe_tail (closure : nat) (st1 : store) :
  wf st1 → isDispatching st1 = false →
  ∃ obj st',
    match subscribe (VFunction (FUser closure)) st1 with
    | OutOfFuel => OutOfFuel
    | Done (Err e) st2 => Done (Err e) st2
    | Done (Ok unsubscribe) st2 =>
        Done
          (Ok (VObject (EngineRef (created st2)) PlainObject
                 [("unsubscribe"%string, unsubscribe)]))
          (set_created (S (created st2)) st2)
    end = Done (Ok obj) st'
    ∧ get_prop obj "unsubscribe" = VFunction (FUnsub (length (closures st1)))
    ∧ registered st' = registered st1 ++ [FUser closure]
    ∧ closures st' = closures st1 ++ [(FUser closure, true)]
    ∧ currentState st' = currentState st1
    ∧ isDispatching st' = false
    ∧ wf st'.
Proof.
  intros Hwf Hidle.
  destruct (subscribe_registers (FUser closure) st1 Hwf Hidle)
    as (st2 & Hsub & Hreg & Hcl & Hwf2).
  destruct (subscribe_sound _ _ _ _ Hsub) as (_ & Hd2 & Hs2 & _).
  rewrite Hsub. eexists _, _. split; [done|]. split; [done|].
  split; [exact Hreg|]. split; [exact Hcl|]. split; [exact Hs2|].
  split; [cbn; congruence|].
  assert (grows st2 (set_created (S (created st2)) st2)) as Hg
    by (by apply grows_same).
  by apply Hg.
Qed.

(** X12.  Subscribing an observer.  The observable's subscribe throws a
    TypeError for what is not an object, the store untouched.  For an
    observer with no [next] it subscribes a closure and returns an object
    holding the function that cancels this subscription.  For an observer
    whose [next] is a function it first calls [next] with the current state:
    when that call throws, the exception is passed on and nothing is
    subscribed; when it returns, the closure is subscribed after the
    listeners registered by then.  A [next] that is neither false nor
    callable makes it throw the host's TypeError, nothing subscribed. *)
Theorem observer_subscription (d : value → store → outcome) (closure : nat)
    (observer : value) (st : store) :
  listener_body E closure = observeState next_body observer →
  sound d →
  wf st →
  isDispatching st = false →
  let subscribed (st1 : store) (o : outcome) :=
    ∃ obj st',
      o = Done (Ok obj) st'
      ∧ get_prop obj "unsubscribe" = VFunction (FUnsub (length (closures st1)))
      ∧ registered st' = registered st1 ++ [FUser closure]
      ∧ closures st' = closures st1 ++ [(FUser closure, true)]
      ∧ currentState st' = currentState st1
      ∧ isDispatching st' = false
      ∧ wf st' in
  (is_object observer = false →
   observable_subscribe E d closure observer st = Done (Err TypeError) st)
  ∧ (is_object observer = true →
     truthy (get_prop observer "next") = false →
     subscribed st (observable_subscribe E d closure observer st))
  ∧ (∀ n,
       is_object observer = true →
       get_prop observer "next" = VFunction (FUser n) →
       match run E d (next_body n (currentState st)) st with
       | OutOfFuel => observable_subscribe E d closure observer st = OutOfFuel
       | Done (Err e) st1 =>
           observable_subscribe E d closure observer st = Done (Err e) st1
       | Done (Ok _) st1 =>
           subscribed st1 (observable_subscribe E d closure observer st)
       end)
  ∧ (is_object observer = true →
     truthy (get_prop observer "next") = true →
     is_function (get_prop observer "next") = false →
     observable_subscribe E d closure observer st = Done (Err TypeError) st).
Proof.
  intros Hbody Hd Hwf Hidle subscribed.
  split; [|split; [|split]].
  - intros Ho. unfold observable_subscribe. by rewrite Ho.
  - intros Ho Hn. unfold observable_subscribe. rewrite Ho.
    cbn [negb invoke_listener]. rewrite Hbody, observeState_blind by done.
    by apply observable_subscribe_tail.
  - intros n Ho Hn. unfold observable_subscribe. rewrite Ho.
    cbn [negb invoke_listener]. rewrite Hbody, (observeState_next d _ n) by done.
    rewrite Hidle.
    destruct (run E d (next_body n (currentState st)) st) as [|[v|e] st1]
      eqn:Hrun; [done| |done].
    destruct (run_sound E d _ Hd _ _ _ Hrun) as [Hg Hf].
    apply observable_subscribe_tail; [by apply Hg | congruence].
  - intros Ho Ht Hf. unfold observable_subscribe. rewrite Ho.
    cbn [negb invoke_listener]. rewrite Hbody. unfold observeState.
    rewrite Ht. cbn [run exec_call]. unfold getState. rewrite Hidle.
    by destruct (get_prop observer "next").
Qed.

(** X13.  Subscribing an observer while the reducer runs.  An observer
    whose [next] is a function is turned away by the read of the state that
    comes first, with IllegalReentrantRead; an observer with no [next] gets
    as far as the store's subscribe and is turned away there, with
    ReentrantSubscribe.  In both cases the store is left as it was. *)
Theorem observer_subscription_reentrant (d : value → store → outcome)
    (closure : nat) (observer : value) (st : store) :
  listener_body E closure = observeState next_body observer →
  is_object observer = true →
  isDispatching st = true →
  (is_function (get_prop observer "next") = true →
   observable_subscribe E d closure observer st
   = Done (Err IllegalReentrantRead) st)
  ∧ (truthy (get_prop observer "next") = false →
     observable_subscribe E d closure observer st
     = Done (Err ReentrantSubscribe) st).
Proof.
  intros Hbody Ho Hbusy. unfold observable_subscribe. rewrite Ho.
  cbn [negb invoke_listener]. rewrite Hbody. split.
  - intros Hf. unfold observeState.
    destruct (get_prop observer "next"); try discriminate Hf.
    cbn [truthy run exec_call]. unfold getState. by rewrite Hbusy.
  - intros Hn. rewrite observeState_blind by done.
    unfold subscribe. by rewrite Hbusy.
Qed.

(** X14.  An observer is told every new state.  In a dispatch whose
    snapshot starts with the closure of an observer, the observer's [next]
    is called with the value the reducer has just returned, before any
    other listener runs; the loop goes on with the listener after it when
    [next] returns, and the dispatch throws what [next] throws. *)
Theorem observer_notified (fuel : nat) (closure n : nat) (observer : value)
    (st : store) (action v : value) (st1 : store) (rest : list fnref) :
  listener_body E closure = observeState next_body observer →
  get_prop observer "next" = VFunction (FUser n) →
  isDispatching st = false →
  valid_action action = true →
  reducer_returns E st action v st1 →
  registered st = FUser closure :: rest →
  ∃ st3,
    currentState st3 = v
    ∧ registered st3 = FUser closure :: rest
    ∧ dispatch E (S (S fuel)) action st
      = match run E (store_dispatch E fuel) (next_body n v) st3 with
        | OutOfFuel => (OutOfFuel, [FUser closure])
        | Done (Err e) st4 => (Done (Err e) st4, [FUser closure])
        | Done (Ok _) st4 =>
            match notify E fuel (nextListeners st3) 1 st4 with
            | (Done (Ok _) st5, invoked) =>
                (Done (Ok action) st5, FUser closure :: invoked)
            | (o, invoked) => (o, FUser closure :: invoked)
            end
        end.
Proof.
  intros Hbody Hn Hidle [Hp Ht]%valid_action_spec Hred Hreg.
  unfold reducer_returns in Hred.
  pose proof (invoke_reducer_busy E 1 _ _ _ (entering action st) _ _
                eq_refl Hred) as Hph.
  set (st3 := set_currentListeners (Some (nextListeners st1))
                (set_isDispatching false (set_currentState v st1))).
  assert (array_at st3 (nextListeners st1) = FUser closure :: rest) as Harr.
  { rewrite <- Hreg. unfold registered, array_at. cbn.
    by rewrite (phase_arrays _ _ Hph), (phase_next _ _ Hph). }
  exists st3. split; [done|]. split; [exact Harr|].
  rewrite dispatch_S, Hp, Ht, Hidle. cbn [negb].
  rewrite (invoke_reducer_busy_fuel E fuel 0) by done.
  rewrite Hred. cbn zeta.
  change (nextListeners (set_isDispatching false (set_currentState v st1)))
    with (nextListeners st1).
  fold st3. change (nextListeners st3) with (nextListeners st1).
  rewrite notify_S, Harr. cbn [lookup list_lookup invoke_listener].
  rewrite Hbody, (observeState_next _ _ n) by done.
  change (isDispatching st3) with false. change (currentState st3) with v.
  destruct (run E _ (next_body n v) st3) as [|[u|e] st4]; [done| |done].
  by destruct (notify E fuel (nextListeners st1) 1 st4) as [[|[u'|e'] st5] inv].
Qed.

End Observers.

(** ** bindActionCreators *)

Lemma bound_field_bind_keys (keys : list string)
    (fields : list (string * value)) (key : string) (f : fnref) :
  bound_field key (bind_keys keys fields) = Some f
  ↔ key ∈ keys ∧ assoc key fields = VFunction f.
Proof.
  induction keys as [|k keys IH]; cbn [bind_keys].
  - cbn. split; [done | by intros [?%elem_of_nil _]].
  - rewrite elem_of_cons.
    destruct (assoc k fields) as [| | | | |g| |] eqn:Hk;
      try (rewrite IH; split;
           [ intros [? ?]; by auto
           | intros [[->|?] Hf]; [congruence | done] ]).
    cbn [bound_field]. destruct (String.eqb_spec k key) as [->|Hne].
    + rewrite Hk. split; [intros [= ->]; by auto | by intros [_ [= ->]]].
    + rewrite IH. split; [intros [? ?]; by auto|].
      intros [[->|?] Hf]; done.
Qed.

Lemma assoc_keys (key : string) (fields : list (string * value)) :
  assoc key fields ≠ VUndefined → key ∈ fields.*1.
Proof.
  induction fields as [|[k v] fields IH]; cbn; [done|].
  destruct (String.eqb_spec k key) as [->|Hne]; intros H.
  - by left.
  - right. by apply IH.
Qed.

Lemma bind_keys_order (keys : list string) (fields : list (string * value)) :
  (bind_keys keys fields).*1
  = filter (λ key, is_function (assoc key fields) = true) keys.
Proof.
  induction keys as [|k keys IH]; [done|]. cbn [bind_keys].
  rewrite filter_cons.
  destruct (assoc k fields); cbn; rewrite ?IH;
    by destruct (decide _).
Qed.

(** X15.  What bindActionCreators binds.  Given an object, it returns an
    object that has, under the same key and in the same order, a bound
    function for every property that is a function, and nothing for the
    other properties: no key is added, and none is bound to another
    function.  Given a function it binds that function; anything else, null
    included, is rejected. *)
Theorem bindActionCreators_binds_functions (ref : objref) (kind : objkind)
    (fields : list (string * value)) :
  let actionCreators := VObject ref kind fields in
  (∃ bound,
     bindActionCreators actionCreators = BindReturn (BoundObject bound)
     ∧ (∀ key f,
          bound_field key bound = Some f
          ↔ get_prop actionCreators key = VFunction f)
     ∧ (∀ key,
          bound_field key bound = None
          ↔ is_function (get_prop actionCreators key) = false)
     ∧ bound.*1
       = filter (λ key, is_function (get_prop actionCreators key) = true)
           fields.*1)
  ∧ (∀ f, bindActionCreators (VFunction f) = BindReturn (BoundFunction f))
  ∧ (∀ v,
       is_function v = false → is_object v = false →
       bindActionCreators v = BindThrow InvalidArgument).
Proof.
  intros actionCreators.
  assert (∀ key f,
            bound_field key (bind_keys fields.*1 fields) = Some f
            ↔ assoc key fields = VFunction f) as Hiff.
  { intros key f. rewrite bound_field_bind_keys. split; [by intros [_ ?]|].
    intros Hf. split; [|done]. apply assoc_keys. by rewrite Hf. }
  split; [|split].
  - eexists. split; [done|]. split; [exact Hiff|]. split.
    + intros key. cbn [get_prop actionCreators].
      destruct (bound_field key _) as [f|] eqn:Hb.
      * apply Hiff in Hb. rewrite Hb. done.
      * split; [|done]. intros _.
        destruct (assoc key fields) as [| | | | |g| |] eqn:Hk; try done.
        apply Hiff in Hk. congruence.
    + apply bind_keys_order.
  - done.
  - intros v Hf Ho. by destruct v.
Qed.

Section BoundCreators.

Variable E : environment.
Variable creator_body : nat → list value → prog.

(** Code that does not dispatch does not depend on what dispatch is. *)
Lemma run_quiet_any (d1 d2 : value → store → outcome) (p : prog) :
  quiet p → ∀ st, run E d1 p st = run E d2 p st.
Proof.
  induction p as [v|e|c k IHk h IHh]; intros Hq st; [done..|].
  destruct Hq as (Hc & Hk & Hh). cbn [run].
  assert (exec_call E d1 c st = exec_call E d2 c st) as ->
    by (by destruct c).
  destruct (exec_call E d2 c st) as [|[v|e] st1]; [done|by apply IHk|by apply IHh].
Qed.

(** X16.  Calling a bound action creator.  The bound function calls the
    action creator with the arguments it was given and dispatches what the
    creator returns: for a creator that does not itself dispatch and
    returns an action the store accepts, on an idle store whose listeners
    do not dispatch, the call is that one dispatch; it leaves the state the
    reducer returned for the creator's action, and returns the action
    unless a listener threw. *)
Theorem bound_creator_dispatches (d0 : value → store → outcome) (n : nat)
    (args : list value) (st : store) (action v : value) (st0 st1 : store) :
  wf st →
  isDispatching st = false →
  quiet (creator_body n args) →
  run E d0 (creator_body n args) st = Done (Ok action) st0 →
  valid_action action = true →
  reducer_returns E st0 action v st1 →
  (∀ l, l ∈ registered st0 → quiet_listener E l) →
  ∃ fuel r st' invoked,
    bindActionCreator E creator_body (store_dispatch E fuel) (FUser n)
      (store_dispatch E fuel) args st
    = Done r st'
    ∧ dispatch E fuel action st0 = (Done r st', invoked)
    ∧ currentState st0 = currentState st
    ∧ currentState st' = v
    ∧ reducerCalls st'
      = reducerCalls st ++ [(currentReducer st, currentState st, action)]
    ∧ (r = Ok action ∨ ∃ e, r = Err e ∧ invoked ≠ []).
Proof.
  intros Hwf Hidle Hq Hrun Hvalid Hred Hquiet.
  destruct (run_quiet E d0 _ Hq st) as (r0 & st0' & Hrun' & Hs).
  rewrite Hrun in Hrun'. injection Hrun' as <- <-.
  destruct Hs as (Hs1 & Hs2 & Hs3 & Hs4).
  assert (wf st0) as Hwf0.
  { rewrite (run_quiet_any d0 (store_dispatch E 0)) in Hrun by done.
    destruct (run_sound E _ _ (dispatch_sound E 0) _ _ _ Hrun) as [Hg _].
    by apply Hg. }
  destruct (dispatch_settles E st0 action v st1 Hwf0 ltac:(congruence)
              Hvalid Hred Hquiet)
    as (fuel & r & st' & invoked & Hd & Hv & _ & _ & Hcalls & Hr).
  exists fuel, r, st', invoked.
  split; [|split; [done|split; [done|split; [done|split; [|done]]]]].
  - unfold bindActionCreator. cbn [invoke_creator].
    rewrite (run_quiet_any _ d0) by done. rewrite Hrun.
    unfold store_dispatch. by rewrite Hd.
  - rewrite Hcalls. congruence.
Qed.

End BoundCreators.

(** ** What the interceptors do not see *)


(** ** The synthetic actions *)

(** X18.  The initialize and the replace action.  Whatever suffixes were
    drawn, both pass the guards of dispatch, and their types differ, so a
    reducer can tell the initialization from a replacement. *)
Theorem synthetic_actions_distinct (E : environment) (n m : nat) :
  valid_action (action_of_type n (ActionTypes_INIT E)) = true
  ∧ valid_action (action_of_type m (ActionTypes_REPLACE E)) = true
  ∧ get_prop (action_of_type n (ActionTypes_INIT E)) "type"
    ≠ get_prop (action_of_type m (ActionTypes_REPLACE E)) "type".
Proof.
  split; [done|]. split; [done|]. cbn. intros H. discriminate H.
Qed.

(** * Beyond the claims, on the scenarios *)

(** The first subscription of [two_inert], cancelled twice. *)
Lemma unsubscribe_idempotent_witness :
  isDispatching two_inert = false
  ∧ closures two_inert !! 0 = Some (FUser 10, true)
  ∧ ∃ st1,
      unsubscribe 0 two_inert = Done (Ok VUndefined) st1
      ∧ unsubscribe 0 st1 = Done (Ok VUndefined) st1
      ∧ unsubscribe 0 (set_isDispatching true st1)
        = Done (Ok VUndefined) (set_isDispatching true st1)
      ∧ (∀ fuel a r st2 invoked,
           dispatch env fuel a st1 = (Done r st2, invoked) →
           unsubscribe 0 st2 = Done (Ok VUndefined) st2).
Proof.
  assert (isDispatching two_inert = false) as Hidle
    by (vm_compute; reflexivity).
  assert (closures two_inert !! 0 = Some (FUser 10, true)) as Hh
    by (vm_compute; reflexivity).
  split; [exact Hidle|]. split; [exact Hh|].
  exact (unsubscribe_idempotent env 0 (FUser 10) two_inert Hidle Hh).
Defined.

(** Before the dispatch 11 and 13 are subscribed; during it 11 subscribes
    12 and cancels 13. *)
Lemma notified_iff_subscribed_witness :
  wf two_listeners
  ∧ dispatch env 5 inc two_listeners
    = (Done (Ok inc) two_listeners_next, [FUser 11; FUser 13])
  ∧ (∀ l, l ∈ registered two_listeners
          ↔ ∃ h, closures two_listeners !! h = Some (l, true))
  ∧ (∀ l, l ∈ registered two_listeners_next
          ↔ ∃ h, closures two_listeners_next !! h = Some (l, true))
  ∧ registered two_listeners_next ≡ₚ live_listeners two_listeners_next.
Proof.
  assert (dispatch env 5 inc two_listeners
          = (Done (Ok inc) two_listeners_next, [FUser 11; FUser 13])) as Hd
    by (vm_compute; reflexivity).
  split; [exact two_listeners_wf|]. split; [exact Hd|].
  exact (notified_iff_subscribed env 5 inc two_listeners _ _ _
           two_listeners_wf Hd).
Defined.

(** The reducer 1 throws for every action: put in while the counter runs,
    and put in on the idle store. *)
Lemma replaceReducer_no_rollback_witness :
  isDispatching busy = true
  ∧ replaceReducer env (store_dispatch env 1) (VFunction (FUser 1)) busy
    = Done (Err ReentrantDispatch)
        (set_created (S (created busy)) (set_currentReducer (FUser 1) busy))
  ∧ isDispatching two_inert = false
  ∧ ∃ st',
      replaceReducer env (store_dispatch env 2) (VFunction (FUser 1)) two_inert
      = Done (Err (UserError (VStr "boom"))) st'
      ∧ currentReducer st' = FUser 1
      ∧ currentState st' = currentState two_inert
      ∧ registered st' = registered two_inert.
Proof.
  assert (isDispatching busy = true) as Hbusy by (vm_compute; reflexivity).
  assert (isDispatching two_inert = false) as Hidle
    by (vm_compute; reflexivity).
  pose proof (replaceReducer_no_rollback env 0 busy (FUser 1)) as Hb.
  pose proof (replaceReducer_no_rollback env 0 two_inert (FUser 1)) as Hi.
  cbv zeta in Hb, Hi.
  destruct Hb as [Hb _]. destruct (Hb Hbusy) as (Hb1 & _).
  destruct Hi as [_ Hi].
  destruct (Hi (UserError (VStr "boom"))
              (entering
                 (action_of_type (created two_inert) (ActionTypes_REPLACE env))
                 (set_created (S (created two_inert))
                    (set_currentReducer (FUser 1) two_inert)))
              Hidle eq_refl)
    as (H1 & H2 & H3 & H4 & _).
  split; [exact Hbusy|]. split; [exact Hb1|]. split; [exact Hidle|].
  eexists. split; [exact H1|]. split; [exact (H2 eq_refl)|].
  split; [exact H3 | exact H4].
Defined.

(** [createStore(counter, 5, undefined, null)] *)
Lemma createStore_preloaded_witness :
  is_function (VNum 5) = false
  ∧ reducer_returns env (set_created 1 (initial_store (FUser 0) (VNum 5)))
      (action_of_type 0 (ActionTypes_INIT env)) (VNum 5)
      (entering (action_of_type 0 (ActionTypes_INIT env))
         (set_created 1 (initial_store (FUser 0) (VNum 5))))
  ∧ ∃ st,
      createStore env 3 (VFunction (FUser 0)) (VNum 5) VUndefined VNull
      = CReturn (store_object env 2) st
      ∧ getState st = Done (Ok (VNum 5)) st
      ∧ reducerCalls st
        = [(FUser 0, VNum 5, action_of_type 0 (ActionTypes_INIT env))]
      ∧ registered st = []
      ∧ isDispatching st = false
      ∧ wf st.
Proof.
  split; [reflexivity|]. split; [reflexivity|].
  exact (createStore_preloaded env 0 (FUser 0) (VNum 5) VNull (VNum 5)
           (entering (action_of_type 0 (ActionTypes_INIT env))
              (set_created 1 (initial_store (FUser 0) (VNum 5))))
           eq_refl eq_refl).
Defined.


(** The listener 30 throws, and 10 after it is not invoked; the counter
    has gone from 0 to 1 all the same. *)
Lemma listener_exception_keeps_state_witness :
  registered More.with_thrower = [FUser 30; FUser 10]
  ∧ listener_body More.env 30 = Throw (UserError (VStr "bang"))
  ∧ reducer_returns More.env More.with_thrower inc (VNum 1)
      (entering inc More.with_thrower)
  ∧ ∃ st',
      dispatch More.env 2 inc More.with_thrower
      = (Done (Err (UserError (VStr "bang"))) st', [FUser 30])
      ∧ currentState st' = VNum 1
      ∧ getState st' = Done (Ok (VNum 1)) st'
      ∧ registered st' = [FUser 30; FUser 10]
      ∧ closures st' = closures More.with_thrower
      ∧ reducerCalls st'
        = reducerCalls More.with_thrower
          ++ [(currentReducer More.with_thrower,
               currentState More.with_thrower, inc)].
Proof.
  assert (isDispatching More.with_thrower = false) as Hidle
    by (vm_compute; reflexivity).
  assert (registered More.with_thrower = [FUser 30; FUser 10]) as Hreg
    by (vm_compute; reflexivity).
  assert (reducer_returns More.env More.with_thrower inc (VNum 1)
            (entering inc More.with_thrower)) as Hred
    by (vm_compute; reflexivity).
  split; [exact Hreg|]. split; [reflexivity|]. split; [exact Hred|].
  exact (listener_exception_keeps_state More.env 0 More.with_thrower inc
           (VNum 1) (entering inc More.with_thrower) 30 [FUser 10]
           (UserError (VStr "bang")) Hidle eq_refl Hred Hreg eq_refl).
Defined.


(** Reading the state while the counter runs; the reducer 5, which reads
    the state first; and the observer's closure, which reads it as a
    listener. *)
Lemma getState_reentrancy_witness :
  run More.env (store_dispatch More.env 0) (Call CGetState Ret Throw) busy
  = Done (Err IllegalReentrantRead) busy
  ∧ (∃ st',
       dispatch More.env 1 inc More.reading
       = (Done (Err IllegalReentrantRead) st', [])
       ∧ currentState st' = currentState More.reading
       ∧ isDispatching st' = false
       ∧ registered st' = registered More.reading)
  ∧ (∃ st3,
       currentState st3 = VNum 1
       ∧ isDispatching st3 = false
       ∧ invoke_listener More.env (store_dispatch More.env 0) (FUser 20) st3
         = run More.env (store_dispatch More.env 0) (More.nexts 0 (VNum 1)) st3
       ∧ dispatch More.env 2 inc More.watched
         = match notify More.env 1 (nextListeners st3) 0 st3 with
           | (Done (Ok _) st4, invoked) => (Done (Ok inc) st4, invoked)
           | other => other
           end).
Proof.
  assert (isDispatching busy = true) as Hbusy by (vm_compute; reflexivity).
  assert (isDispatching More.reading = false) as Hidle
    by (vm_compute; reflexivity).
  assert (isDispatching More.watched = false) as Hidle'
    by (vm_compute; reflexivity).
  assert (registered More.watched = [FUser 20]) as Hreg
    by (vm_compute; reflexivity).
  assert (reducer_returns More.env More.watched inc (VNum 1)
            (entering inc More.watched)) as Hred
    by (vm_compute; reflexivity).
  assert (listener_body More.env 20 = call_then CGetState (More.nexts 0))
    as Hbody by (vm_compute; reflexivity).
  destruct (getState_reentrancy More.env 0 busy) as (H1 & _ & _).
  destruct (getState_reentrancy More.env 0 More.reading) as (_ & H2 & _).
  destruct (getState_reentrancy More.env 0 More.watched) as (_ & _ & H3).
  split; [|split].
  - rewrite (H1 (store_dispatch More.env 0) Ret Throw), Hbusy. reflexivity.
  - exact (H2 inc 5 (λ s, Ret s) Hidle eq_refl eq_refl eq_refl).
  - exact (H3 inc (VNum 1) (entering inc More.watched) 20 [] (More.nexts 0)
             Hidle' eq_refl Hred Hreg Hbody).
Defined.


(** The listener 10 is subscribed a second time and that subscription is
    cancelled: 10 now comes after 13. *)
Lemma subscribe_unsubscribe_round_trip_witness :
  registered two_inert = [FUser 10; FUser 13]
  ∧ ∃ h st1 st2,
      subscribe (VFunction (FUser 10)) two_inert
      = Done (Ok (VFunction (FUnsub h))) st1
      ∧ unsubscribe h st1 = Done (Ok VUndefined) st2
      ∧ registered st2 = [FUser 13; FUser 10]
      ∧ registered st2 ≡ₚ registered two_inert
      ∧ wf st2.
Proof.
  assert (isDispatching two_inert = false) as Hidle
    by (vm_compute; reflexivity).
  assert (registered two_inert = [FUser 10; FUser 13]) as Hreg
    by (vm_compute; reflexivity).
  destruct (subscribe_unsubscribe_round_trip (FUser 10) two_inert
              two_inert_wf Hidle)
    as (h & st1 & st2 & Hs & Hu & _ & Hperm & _ & Hmove & _ & _ & Hwf).
  split; [exact Hreg|]. exists h, st1, st2.
  split; [exact Hs|]. split; [exact Hu|].
  split; [exact (Hmove [FUser 13] Hreg)|]. split; [exact Hperm | exact Hwf].
Defined.

(** [watcher] subscribes to the observable of the new store. *)
Lemma observer_subscription_witness :
  listener_body More.env 20 = observeState More.nexts More.watcher
  ∧ ∃ obj st',
      observable_subscribe More.env (store_dispatch More.env 5) 20
        More.watcher fresh
      = Done (Ok obj) st'
      ∧ get_prop obj "unsubscribe" = VFunction (FUnsub 0)
      ∧ registered st' = [FUser 20]
      ∧ currentState st' = VNum 0
      ∧ wf st'.
Proof.
  assert (isDispatching fresh = false) as Hidle by (vm_compute; reflexivity).
  assert (registered fresh = []) as Hreg0 by (vm_compute; reflexivity).
  assert (closures fresh = []) as Hcl0 by (vm_compute; reflexivity).
  assert (currentState fresh = VNum 0) as Hs0 by (vm_compute; reflexivity).
  pose proof (observer_subscription More.env More.nexts
                (store_dispatch More.env 5) 20 More.watcher fresh eq_refl
                (dispatch_sound More.env 5) fresh_wf Hidle) as H.
  cbv zeta in H. destruct H as (_ & _ & H & _).
  specialize (H 0 eq_refl eq_refl). cbn [More.nexts run] in H.
  destruct H as (obj & st' & Ho & Hu & Hreg & _ & Hs & _ & Hwf).
  rewrite Hcl0 in Hu. rewrite Hreg0 in Hreg. rewrite Hs0 in Hs.
  split; [reflexivity|]. exists obj, st'.
  split; [exact Ho|]. split; [exact Hu|]. split; [exact Hreg|].
  split; [exact Hs | exact Hwf].
Defined.

(** [watcher] and [blind] subscribe while the counter runs. *)
Lemma observer_subscription_reentrant_witness :
  isDispatching busy = true
  ∧ observable_subscribe More.env (store_dispatch More.env 5) 20 More.watcher
      busy
    = Done (Err IllegalReentrantRead) busy
  ∧ observable_subscribe More.env (store_dispatch More.env 5) 21 More.blind
      busy
    = Done (Err ReentrantSubscribe) busy.
Proof.
  assert (isDispatching busy = true) as Hbusy by (vm_compute; reflexivity).
  split; [exact Hbusy|]. split.
  - exact (proj1 (observer_subscription_reentrant More.env More.nexts
                    (store_dispatch More.env 5) 20 More.watcher busy
                    eq_refl eq_refl Hbusy)
             eq_refl).
  - exact (proj2 (observer_subscription_reentrant More.env More.nexts
                    (store_dispatch More.env 5) 21 More.blind busy
                    eq_refl eq_refl Hbusy)
             eq_refl).
Defined.

(** [dispatch(inc)] on the store that [watcher] observes. *)
Lemma observer_notified_witness :
  registered More.watched = [FUser 20]
  ∧ reducer_returns More.env More.watched inc (VNum 1)
      (entering inc More.watched)
  ∧ ∃ st3,
      currentState st3 = VNum 1
      ∧ registered st3 = [FUser 20]
      ∧ dispatch More.env 3 inc More.watched
        = (Done (Ok inc) st3, [FUser 20]).
Proof.
  assert (isDispatching More.watched = false) as Hidle
    by (vm_compute; reflexivity).
  assert (registered More.watched = [FUser 20]) as Hreg
    by (vm_compute; reflexivity).
  assert (reducer_returns More.env More.watched inc (VNum 1)
            (entering inc More.watched)) as Hred
    by (vm_compute; reflexivity).
  destruct (observer_notified More.env More.nexts 1 20 0 More.watcher
              More.watched inc (VNum 1) (entering inc More.watched) []
              eq_refl eq_refl Hidle eq_refl Hred Hreg)
    as (st3 & Hs & Hreg3 & Hd).
  split; [exact Hreg|]. split; [exact Hred|]. exists st3.
  split; [exact Hs|]. split; [exact Hreg3|].
  rewrite Hd. cbn [More.nexts run]. rewrite notify_S.
  unfold registered in Hreg3. rewrite Hreg3. reflexivity.
Defined.

(** An object with one action creator and one number; null; a number. *)
Lemma bindActionCreators_binds_functions_witness :
  bindActionCreators More.creators_object
  = BindReturn (BoundObject [("increment"%string, FUser 0)])
  ∧ bindActionCreators VNull = BindThrow InvalidArgument
  ∧ bindActionCreators (VNum 3) = BindThrow InvalidArgument.
Proof.
  pose proof (bindActionCreators_binds_functions (UserRef 9) PlainObject
                [("increment"%string, VFunction (FUser 0));
                 ("version"%string, VNum 3)]) as H.
  cbv zeta in H. destruct H as (_ & _ & H).
  split; [reflexivity|].
  split; [exact (H VNull eq_refl eq_refl) | exact (H (VNum 3) eq_refl eq_refl)].
Defined.

(** The bound [increment] of the scenario, called on [two_inert]. *)
Lemma bound_creator_dispatches_witness :
  quiet (More.creators 0 [])
  ∧ reducer_returns env two_inert inc (VNum 1) (entering inc two_inert)
  ∧ ∃ fuel r st' invoked,
      bindActionCreator env More.creators (store_dispatch env fuel) (FUser 0)
        (store_dispatch env fuel) [] two_inert
      = Done r st'
      ∧ dispatch env fuel inc two_inert = (Done r st', invoked)
      ∧ currentState st' = VNum 1
      ∧ (r = Ok inc ∨ ∃ e, r = Err e ∧ invoked ≠ []).
Proof.
  assert (isDispatching two_inert = false) as Hidle
    by (vm_compute; reflexivity).
  assert (reducer_returns env two_inert inc (VNum 1) (entering inc two_inert))
    as Hred by (vm_compute; reflexivity).
  destruct (bound_creator_dispatches env More.creators (store_dispatch env 0)
              0 [] two_inert inc (VNum 1) two_inert (entering inc two_inert)
              two_inert_wf Hidle I eq_refl eq_refl Hred two_inert_quiet)
    as (fuel & r & st' & invoked & Hb & Hd & _ & Hv & _ & Hr).
  split; [exact I|]. split; [exact Hred|]. exists fuel, r, st', invoked.
  split; [exact Hb|]. split; [exact Hd|]. split; [exact Hv | exact Hr].
Defined.

